(** * A shallow embedding of the Go package [version]

    The package ([version.go], [field.go], the error sentinels and the
    functional options) implements a semantic-version value type in the
    flavour of Go's module system: [v<major>.<minor>.<patch>[-<preRelease>]].

    Go strings are byte sequences: they are modelled as [list ascii].
    The unsigned integers of the [Version] struct ([uint], whose width is
    the platform's) are modelled as [Z] with the wrap-around modulo
    [2 ^ IntSize] written out.  The functions of Go's standard library the
    package calls ([regexp.MatchString], [strings.Index], [strings.Split],
    [strconv.ParseUint], [fmt.Sprintf], [fmt.Errorf]) are modelled by their
    documented behaviour, next to the code that calls them. *)

From Stdlib Require Import ZArith List Bool Ascii String Lia.
Import ListNotations.

Local Open Scope Z_scope.

(** ** Go strings *)

Definition gostring := list ascii.

(** A string literal of the Go source. *)
Definition str (s : string) : gostring := list_ascii_of_string s.

(** The numeric value of a byte. *)
Definition code (c : ascii) : Z := Z.of_N (N_of_ascii c).

(** [len(s)]. *)
Definition len {A} (s : list A) : Z := Z.of_nat (List.length s).

(** Go's [<] on strings compares them byte by byte, a proper prefix being
    smaller. *)
Fixpoint strcmp (a b : gostring) : comparison :=
  match a, b with
  | [], [] => Eq
  | [], _ :: _ => Lt
  | _ :: _, [] => Gt
  | x :: a', y :: b' =>
      match code x ?= code y with
      | Eq => strcmp a' b'
      | c => c
      end
  end.

Definition strlt (a b : gostring) : bool :=
  match strcmp a b with Lt => true | _ => false end.

(** ** Panics

    An index or a slice expression out of range is a run-time panic in Go.
    A function that indexes or slices returns an [outcome]. *)

Inductive outcome (A : Type) : Type :=
| Returns (a : A)
| Panics.

Arguments Returns {A} a.
Arguments Panics {A}.

Definition bind {A B} (m : outcome A) (k : A -> outcome B) : outcome B :=
  match m with
  | Returns a => k a
  | Panics => Panics
  end.

Notation "x <- m ;; k" := (bind m (fun x => k))
  (at level 61, m at next level, right associativity).

(** [s[lo:hi]]: panics unless [0 <= lo <= hi <= len(s)]. *)
Definition slice (s : gostring) (lo hi : Z) : outcome gostring :=
  if (0 <=? lo) && (lo <=? hi) && (hi <=? len s)
  then Returns (firstn (Z.to_nat (hi - lo)) (skipn (Z.to_nat lo) s))
  else Panics.

(** [ss[i]]: panics unless [0 <= i < len(ss)]. *)
Definition index {A} (ss : list A) (i : Z) : outcome A :=
  if i <? 0 then Panics
  else match nth_error ss (Z.to_nat i) with
       | Some x => Returns x
       | None => Panics
       end.

(** ** UTF-8 decoding, as the regexp engine steps through its input

    [regexp] reads its input one rune at a time with
    [utf8.DecodeRuneInString]: a byte below [0x80] is itself, a well-formed
    multi-byte sequence is one rune, and any byte that starts no well-formed
    sequence is the rune [RuneError] of width one. *)

Definition rune := Z.

Definition RuneError : rune := 65533.

(** The continuation-byte range. *)
Definition locb : Z := 128.
Definition hicb : Z := 191.

Definition between (lo hi x : Z) : bool := (lo <=? x) && (x <=? hi).

(** The entry of [utf8.first] for a leading byte: [None] for ASCII and
    invalid leading bytes, otherwise the size of the sequence and the
    accepted range of its second byte. *)
Definition first (b : Z) : option (Z * (Z * Z)) :=
  if b <? 194 then None
  else if b <=? 223 then Some (2, (locb, hicb))
  else if b =? 224 then Some (3, (160, hicb))
  else if b <=? 236 then Some (3, (locb, hicb))
  else if b =? 237 then Some (3, (locb, 159))
  else if b <=? 239 then Some (3, (locb, hicb))
  else if b =? 240 then Some (4, (144, hicb))
  else if b <=? 243 then Some (4, (locb, hicb))
  else if b =? 244 then Some (4, (locb, 143))
  else None.

Definition mask2 : Z := 31.
Definition mask3 : Z := 15.
Definition mask4 : Z := 7.
Definition maskx : Z := 63.

(** The runes of a string, decoded from left to right. *)
Fixpoint runes (s : gostring) : list rune :=
  match s with
  | [] => []
  | c0 :: t0 =>
      let s0 := code c0 in
      match first s0 with
      | None => (if s0 <? 128 then s0 else RuneError) :: runes t0
      | Some (sz, (lo, hi)) =>
          match t0 with
          | [] => RuneError :: runes t0
          | c1 :: t1 =>
              let s1 := code c1 in
              if negb (between lo hi s1) then RuneError :: runes t0
              else if sz <=? 2 then
                Z.lor (Z.shiftl (Z.land s0 mask2) 6) (Z.land s1 maskx)
                  :: runes t1
              else
                match t1 with
                | [] => RuneError :: runes t0
                | c2 :: t2 =>
                    let s2 := code c2 in
                    if negb (between locb hicb s2) then RuneError :: runes t0
                    else if sz <=? 3 then
                      Z.lor (Z.lor (Z.shiftl (Z.land s0 mask3) 12)
                                   (Z.shiftl (Z.land s1 maskx) 6))
                            (Z.land s2 maskx)
                        :: runes t2
                    else
                      match t2 with
                      | [] => RuneError :: runes t0
                      | c3 :: t3 =>
                          let s3 := code c3 in
                          if negb (between locb hicb s3)
                          then RuneError :: runes t0
                          else
                            Z.lor (Z.lor (Z.lor
                                     (Z.shiftl (Z.land s0 mask4) 18)
                                     (Z.shiftl (Z.land s1 maskx) 12))
                                     (Z.shiftl (Z.land s2 maskx) 6))
                                  (Z.land s3 maskx)
                              :: runes t3
                      end
                end
          end
      end
  end.

(** ** Regular expressions

    The fragment of RE2 syntax that [versionPattern] uses.  Without flags
    [.] matches any rune but a newline, and [^] and [$] match at the two
    ends of the text only. *)

Inductive regex : Type :=
| Void                          (* matches nothing *)
| Eps                           (* the empty string *)
| Lit (c : rune)                (* a literal character *)
| Class (rs : list (rune * rune))  (* [a-zA-Z0-9]: a union of ranges *)
| AnyNotNL                      (* . *)
| Cat (r1 r2 : regex)
| Alt (r1 r2 : regex)
| Star (r : regex).

(** [r+], [r?] and [r{2}], as [regexp/syntax] simplifies them. *)
Definition Plus (r : regex) : regex := Cat r (Star r).
Definition Opt (r : regex) : regex := Alt r Eps.
Definition Twice (r : regex) : regex := Cat r r.

Definition inClass (rs : list (rune * rune)) (c : rune) : bool :=
  existsb (fun p => between (fst p) (snd p) c) rs.

(** The language of a regular expression. *)
Inductive Matches : regex -> list rune -> Prop :=
| MEps : Matches Eps []
| MLit c : Matches (Lit c) [c]
| MClass rs c : inClass rs c = true -> Matches (Class rs) [c]
| MAny c : c <> 10 -> Matches AnyNotNL [c]
| MCat r1 r2 u v : Matches r1 u -> Matches r2 v -> Matches (Cat r1 r2) (u ++ v)
| MAltL r1 r2 u : Matches r1 u -> Matches (Alt r1 r2) u
| MAltR r1 r2 u : Matches r2 u -> Matches (Alt r1 r2) u
| MStar0 r : Matches (Star r) []
| MStarS r u v : Matches r u -> Matches (Star r) v -> Matches (Star r) (u ++ v).

(** The matcher: Brzozowski derivatives. *)
Fixpoint nullable (r : regex) : bool :=
  match r with
  | Void => false
  | Eps => true
  | Lit _ => false
  | Class _ => false
  | AnyNotNL => false
  | Cat r1 r2 => nullable r1 && nullable r2
  | Alt r1 r2 => nullable r1 || nullable r2
  | Star _ => true
  end.

Fixpoint deriv (c : rune) (r : regex) : regex :=
  match r with
  | Void => Void
  | Eps => Void
  | Lit d => if c =? d then Eps else Void
  | Class rs => if inClass rs c then Eps else Void
  | AnyNotNL => if c =? 10 then Void else Eps
  | Cat r1 r2 =>
      if nullable r1
      then Alt (Cat (deriv c r1) r2) (deriv c r2)
      else Cat (deriv c r1) r2
  | Alt r1 r2 => Alt (deriv c r1) (deriv c r2)
  | Star r1 => Cat (deriv c r1) (Star r1)
  end.

Fixpoint matchb (r : regex) (s : list rune) : bool :=
  match s with
  | [] => nullable r
  | c :: s' => matchb (deriv c r) s'
  end.

(** [regexp.MatchString("^" + r + "$", s)]: the pattern is anchored at both
    ends, so the whole text must be in the language of [r].  The pattern is
    a constant that compiles, so the error is always [nil]. *)
Definition MatchString (r : regex) (s : gostring) : bool :=
  matchb r (runes s).

(** ** version.go: the grammar *)

Definition chr (s : string) : rune :=
  match s with
  | String c _ => code c
  | EmptyString => 0
  end.

Definition digit09 : regex := Class [(chr "0", chr "9")].
Definition digit19 : regex := Class [(chr "1", chr "9")].
Definition alnum : regex :=
  Class [(chr "a", chr "z"); (chr "A", chr "Z"); (chr "0", chr "9")].

(** A numeric field: the digit zero, or a digit from one to nine followed
    by any number of digits. *)
Definition number : regex := Alt (Lit (chr "0")) (Cat digit19 (Star digit09)).

(** The text of the constant [versionPattern]. *)
Definition versionPatternText : string :=
  "^v(0|[1-9][0-9]*)(.(0|[1-9][0-9]*)){2}(-([a-zA-Z0-9]+)(.[a-zA-Z0-9]+)*)?$".

(** [versionPattern] as a syntax tree, between its two anchors.  The dots of
    the pattern are not escaped: each is the regular expression that matches
    any character. *)
Definition versionPattern : regex :=
  Cat (Lit (chr "v"))
 (Cat number
 (Cat (Twice (Cat AnyNotNL number))
      (Opt (Cat (Lit (chr "-"))
           (Cat (Plus alnum)
                (Star (Cat AnyNotNL (Plus alnum)))))))).

(** [IsValid] determines if a string is a valid representation of a
    version. *)
Definition IsValid (version : gostring) : bool :=
  MatchString versionPattern version.

(** ** The platform

    [uint] and [strconv.IntSize] have the width of the platform the package
    is compiled for. *)

Inductive arch : Type := Bits32 | Bits64.

Definition IntSize (a : arch) : Z :=
  match a with
  | Bits32 => 32
  | Bits64 => 64
  end.

(** The value a [uint] computation wraps to. *)
Definition wrap (a : arch) (n : Z) : Z := n mod 2 ^ IntSize a.

Definition wrap64 (n : Z) : Z := n mod 2 ^ 64.

(** The values a [uint] holds. *)
Definition isUint (a : arch) (n : Z) : Prop := 0 <= n < 2 ^ IntSize a.

(** ** Errors

    The two sentinels of the package, the two of [strconv], the
    [*strconv.NumError] that [strconv.ParseUint] returns, and the error
    [fmt.Errorf(prefix + "%w", err)] builds: its message is the prefix
    followed by the message of [err], which it unwraps to. *)

Inductive error : Type :=
| ErrInvalidField
| ErrInvalidVersion
| ErrSyntax
| ErrRange
| NumError (Func : string) (Num : gostring) (Err : error)
| wrapError (prefix : string) (err : error).

Definition Errorf (prefix : string) (err : error) : error :=
  wrapError prefix err.

Definition Unwrap (e : error) : option error :=
  match e with
  | NumError _ _ err => Some err
  | wrapError _ err => Some err
  | _ => None
  end.

Definition error_eq_dec (x y : error) : {x = y} + {x <> y}.
Proof.
  decide equality;
    try apply string_dec; apply (list_eq_dec ascii_dec).
Defined.

(** [errors.Is]: [target] is [err] or an error in the chain [err] unwraps
    to. *)
Fixpoint errors_Is (err target : error) : bool :=
  if error_eq_dec err target then true
  else match err with
       | NumError _ _ e => errors_Is e target
       | wrapError _ e => errors_Is e target
       | _ => false
       end.

(** ** strings.Index and strings.Split *)

Fixpoint HasPrefix (s prefix : gostring) : bool :=
  match prefix, s with
  | [], _ => true
  | _ :: _, [] => false
  | p :: prefix', c :: s' => Ascii.eqb c p && HasPrefix s' prefix'
  end.

(** The index of the first instance of [substr] in [s], or [-1]. *)
Fixpoint Index (s substr : gostring) : Z :=
  if HasPrefix s substr then 0
  else match s with
       | [] => -1
       | _ :: t => let i := Index t substr in if i <? 0 then -1 else i + 1
       end.

(** [genSplit] for a separator that is not empty: cut at each instance of
    [sep], the rest of the string being the last piece.  Each cut consumes
    a byte at least, so [length s] rounds are enough. *)
Fixpoint genSplit (fuel : nat) (s sep : gostring) : list gostring :=
  match fuel with
  | O => [s]
  | S fuel' =>
      let m := Index s sep in
      if m <? 0 then [s]
      else firstn (Z.to_nat m) s
             :: genSplit fuel' (skipn (Z.to_nat m + List.length sep) s) sep
  end.

Definition Split (s sep : gostring) : list gostring :=
  genSplit (List.length s) s sep.

(** ** strconv.ParseUint, base 10 *)

Definition maxUint64 : Z := 2 ^ 64 - 1.

Definition lower (c : Z) : Z := Z.lor c 32.

Definition syntaxError (fn : string) (s : gostring) : error :=
  NumError fn s ErrSyntax.

Definition rangeError (fn : string) (s : gostring) : error :=
  NumError fn s ErrRange.

(** The loop over the bytes of [s]; [s0] is the whole argument, for the
    error. *)
Fixpoint parseDigits (base cutoff maxVal : Z) (s0 s : gostring) (n : Z)
  : Z * option error :=
  match s with
  | [] => (n, None)
  | b :: rest =>
      let c := code b in
      let d :=
        if between (chr "0") (chr "9") c then Some (c - chr "0")
        else if between (chr "a") (chr "z") (lower c)
             then Some (lower c - chr "a" + 10)
             else None in
      match d with
      | None => (0, Some (syntaxError "ParseUint" s0))
      | Some d =>
          if d >=? base then (0, Some (syntaxError "ParseUint" s0))
          else if n >=? cutoff then (maxVal, Some (rangeError "ParseUint" s0))
          else
            let n' := wrap64 (n * base) in
            let n1 := wrap64 (n' + d) in
            if (n1 <? n') || (n1 >? maxVal)
            then (maxVal, Some (rangeError "ParseUint" s0))
            else parseDigits base cutoff maxVal s0 rest n1
      end
  end.

(** [strconv.ParseUint(s, 10, bitSize)] for a [bitSize] from 1 to 64. *)
Definition ParseUint (s : gostring) (bitSize : Z) : Z * option error :=
  match s with
  | [] => (0, Some (syntaxError "ParseUint" s))
  | _ =>
      let cutoff := maxUint64 / 10 + 1 in
      let maxVal := wrap64 (wrap64 (Z.shiftl 1 bitSize) - 1) in
      parseDigits 10 cutoff maxVal s s 0
  end.

(** ** fmt.Sprintf with the verb d, for an unsigned integer

    [fmtInteger] fills its buffer from the end, a digit at a time. *)

Definition digitByte (d : Z) : ascii := ascii_of_N (Z.to_N (chr "0" + d)).

Fixpoint fmtInteger (fuel : nat) (u : Z) (buf : gostring) : gostring :=
  match fuel with
  | O => digitByte u :: buf
  | S fuel' =>
      if 10 <=? u
      then let next := u / 10 in
           fmtInteger fuel' next (digitByte (u - next * 10) :: buf)
      else digitByte u :: buf
  end.

(** A number below [2 ^ (fuel + 1)] has [fuel + 1] decimal digits at most. *)
Definition fmtUint (u : Z) : gostring :=
  fmtInteger (Z.to_nat (Z.log2 u)) u [].

(** ** version.go: the Version type *)

Record Version : Type := mkVersion {
  major : Z;
  minor : Z;
  patch : Z;
  preRelease : gostring
}.

(** [Version{}]. *)
Definition zeroVersion : Version := mkVersion 0 0 0 [].

(** A [Version] whose three numbers are values of [uint]. *)
Definition wfVersion (a : arch) (v : Version) : Prop :=
  isUint a (major v) /\ isUint a (minor v) /\ isUint a (patch v).

(** An [Option] modifies a version. *)
Definition Option : Type := Version -> Version.

(** [PreRelease] returns an option that sets the pre-release field. *)
Definition PreRelease (s : gostring) : Option :=
  fun v => mkVersion (major v) (minor v) (patch v) s.

(** [String] returns a representation of a version. *)
Definition Version_String (v : Version) : gostring :=
  match preRelease v with
  | [] =>
      str "v" ++ fmtUint (major v) ++ str "." ++ fmtUint (minor v)
        ++ str "." ++ fmtUint (patch v)
  | _ =>
      str "v" ++ fmtUint (major v) ++ str "." ++ fmtUint (minor v)
        ++ str "." ++ fmtUint (patch v) ++ str "-" ++ preRelease v
  end.

(** The loop of [New] over its options. *)
Fixpoint applyOptions (opts : list Option) (v : Version) : Version :=
  match opts with
  | [] => v
  | o :: opts' => applyOptions opts' (o v)
  end.

(** [New] returns a version with any given options. *)
Definition New (major minor patch : Z) (opts : list Option)
  : Version * option error :=
  let v := applyOptions opts (mkVersion major minor patch []) in
  if negb (IsValid (Version_String v))
  then (zeroVersion, Some ErrInvalidVersion)
  else (v, None).

(** [Parse] returns a version parsed from a given string. *)
Definition Parse (a : arch) (s : gostring) : outcome (Version * option error) :=
  if negb (IsValid s) then Returns (zeroVersion, Some ErrInvalidVersion)
  else
    let i := Index s (str "-") in
    fp <- (if i <? 0
           then fields <- slice s 1 (len s) ;; Returns (fields, [])
           else fields <- slice s 1 i ;;
                pre <- slice s (i + 1) (len s) ;;
                Returns (fields, pre)) ;;
    let fields := fst fp in
    let preRelease := snd fp in
    let ss := Split fields (str ".") in
    s0 <- index ss 0 ;;
    match ParseUint s0 (IntSize a) with
    | (_, Some err) =>
        Returns (zeroVersion, Some (Errorf "strconv.ParseUint: " err))
    | (major, None) =>
        s1 <- index ss 1 ;;
        match ParseUint s1 (IntSize a) with
        | (_, Some err) =>
            Returns (zeroVersion, Some (Errorf "strconv.ParseUint: " err))
        | (minor, None) =>
            s2 <- index ss 2 ;;
            match ParseUint s2 (IntSize a) with
            | (_, Some err) =>
                Returns (zeroVersion, Some (Errorf "strconv.ParseUint: " err))
            | (patch, None) =>
                match New (wrap a major) (wrap a minor) (wrap a patch)
                          [PreRelease preRelease] with
                | (_, Some err) =>
                    Returns (zeroVersion, Some (Errorf "New: " err))
                | (v, None) => Returns (v, None)
                end
            end
        end
    end.

(** ** field.go *)

(** [Field] corresponds to the fields major, minor, and patch. *)
Definition Field : Type := Z.

Definition Patch : Field := 1 + 0.
Definition Minor : Field := 1 + 1.
Definition Major : Field := 1 + 2.

(** ** version.go: the methods *)

(** [Bump] returns the next version given a field. *)
Definition Version_Bump (a : arch) (v : Version) (f : Field)
  (opts : list Option) : Version * option error :=
  if f =? Major then
    match New (wrap a (major v + 1)) 0 0 opts with
    | (_, Some err) => (zeroVersion, Some (Errorf "New: " err))
    | (v1, None) => (v1, None)
    end
  else if f =? Minor then
    match New (major v) (wrap a (minor v + 1)) 0 opts with
    | (_, Some err) => (zeroVersion, Some (Errorf "New: " err))
    | (v1, None) => (v1, None)
    end
  else if f =? Patch then
    match New (major v) (minor v) (wrap a (patch v + 1)) opts with
    | (_, Some err) => (zeroVersion, Some (Errorf "New: " err))
    | (v1, None) => (v1, None)
    end
  else (zeroVersion, Some ErrInvalidField).

(** [Compare] returns the comparison of two versions. *)
Definition Version_Compare (v v1 : Version) : Z :=
  if major v <? major v1 then -1
  else if major v1 <? major v then 1
  else if minor v <? minor v1 then -1
  else if minor v1 <? minor v then 1
  else if patch v <? patch v1 then -1
  else if patch v1 <? patch v then 1
  else if strlt (preRelease v) (preRelease v1) then -1
  else if strlt (preRelease v1) (preRelease v) then 1
  else 0.

(** [IsValid] determines if a version is valid. *)
Definition Version_IsValid (a : arch) (v : Version) : outcome bool :=
  r <- Parse a (Version_String v) ;;
  match r with
  | (v1, None) => Returns (Version_Compare v v1 =? 0)
  | (_, Some _) => Returns false
  end.

Definition Version_Major (v : Version) : Z := major v.
Definition Version_Minor (v : Version) : Z := minor v.
Definition Version_Patch (v : Version) : Z := patch v.
Definition Version_PreRelease (v : Version) : gostring := preRelease v.

(** * The vocabulary of the properties *)

(** ** The grammar as the specification words it

    The three numeric fields are separated by dots and so are the segments
    of the pre-release: the separator is the literal character. *)

Definition dot : regex := Lit (chr ".").

Definition specGrammar : regex :=
  Cat (Lit (chr "v"))
 (Cat number
 (Cat (Twice (Cat dot number))
      (Opt (Cat (Lit (chr "-"))
           (Cat (Plus alnum)
                (Star (Cat dot (Plus alnum)))))))).

(** [looser r r']: [r'] is [r] with some literals other than the newline
    replaced by the expression that matches any character. *)
Inductive looser : regex -> regex -> Prop :=
| looser_refl r : looser r r
| looser_any c : c <> 10 -> looser (Lit c) AnyNotNL
| looser_Cat r1 r2 r1' r2' :
    looser r1 r1' -> looser r2 r2' -> looser (Cat r1 r2) (Cat r1' r2')
| looser_Alt r1 r2 r1' r2' :
    looser r1 r1' -> looser r2 r2' -> looser (Alt r1 r2) (Alt r1' r2')
| looser_Star r r' : looser r r' -> looser (Star r) (Star r').

(** [within lo hi r]: every character [r] matches lies between [lo] and
    [hi]. *)
Fixpoint within (lo hi : rune) (r : regex) : bool :=
  match r with
  | Void | Eps => true
  | Lit c => between lo hi c
  | Class rs => forallb (fun p => (lo <=? fst p) && (snd p <=? hi)) rs
  | AnyNotNL => false
  | Cat r1 r2 | Alt r1 r2 => within lo hi r1 && within lo hi r2
  | Star r1 => within lo hi r1
  end.

(** ** Orders and renderings *)

(** Strict precedence: major, then minor, then patch, then the pre-release
    strings in the order of their bytes. *)
Definition precedes (v w : Version) : Prop :=
  major v < major w \/
  (major v = major w /\
   (minor v < minor w \/
    (minor v = minor w /\
     (patch v < patch w \/
      (patch v = patch w /\ strlt (preRelease v) (preRelease w) = true))))).

Definition sameFields (v w : Version) : Prop :=
  major v = major w /\ minor v = minor w /\ patch v = patch w /\
  preRelease v = preRelease w.

(** A byte that is a decimal digit. *)
Definition isDigitByte (c : ascii) : Prop := 48 <= code c <= 57.

(** The three numbers joined by dots. *)
Definition numericPart (v : Version) : gostring :=
  fmtUint (major v) ++ "."%char :: fmtUint (minor v)
    ++ "."%char :: fmtUint (patch v).

(** ** The stages of Bump and Parse *)

(** What [Bump] makes of the result of [New]: the version as it is, an
    error wrapped by [fmt.Errorf] under the prefix "New: " next to the
    zero-value version. *)
Definition surfaceNew (r : Version * option error) : Version * option error :=
  match r with
  | (v1, None) => (v1, None)
  | (_, Some err) => (zeroVersion, Some (wrapError "New: " err))
  end.

(** The segments [Parse] converts: the string between the leading byte and
    the first dash, or the end, split at the dots. *)
Definition fieldStrings (s : gostring) : outcome (list gostring) :=
  let i := Index s (str "-") in
  fields <- (if i <? 0 then slice s 1 (len s) else slice s 1 i) ;;
  Returns (Split fields (str ".")).

(** The first of the three segments whose conversion fails, and the error
    of [strconv.ParseUint]. *)
Definition conversionFailure (a : arch) (ss : list gostring)
  : option (nat * error) :=
  match ss with
  | [] => None
  | s0 :: ss1 =>
      match ParseUint s0 (IntSize a) with
      | (_, Some e) => Some (0%nat, e)
      | (_, None) =>
          match ss1 with
          | [] => None
          | s1 :: ss2 =>
              match ParseUint s1 (IntSize a) with
              | (_, Some e) => Some (1%nat, e)
              | (_, None) =>
                  match ss2 with
                  | [] => None
                  | s2 :: _ =>
                      match ParseUint s2 (IntSize a) with
                      | (_, Some e) => Some (2%nat, e)
                      | (_, None) => None
                      end
                  end
              end
          end
      end
  end.

(** The stage of the numeric conversion at which [Parse] fails on [s]:
    0 for major, 1 for minor, 2 for patch. *)
Definition failingStage (a : arch) (s : gostring) : option nat :=
  match fieldStrings s with
  | Returns ss => option_map fst (conversionFailure a ss)
  | Panics => None
  end.

(** ** The vocabulary of the further properties *)

(** The pre-release part of [versionPattern], after the dash. *)
Definition preReleasePattern : regex :=
  Cat (Plus alnum) (Star (Cat AnyNotNL (Plus alnum))).

(** A rune that is a decimal digit. *)
Definition isDigitRune (r : rune) : Prop := 48 <= r <= 57.

(** What may follow the third number: nothing, or a dash. *)
Definition tailShape (T : list rune) : Prop :=
  T = [] \/ exists r, T = 45 :: r.

(** What follows the numbers does not start with a digit. *)
Definition noDigitHead (t : list rune) : Prop :=
  match t with
  | [] => True
  | x :: _ => ~ isDigitRune x
  end.

(** The number a string of decimal digits denotes. *)
Definition digitsValue (d : gostring) : Z :=
  fold_left (fun acc c => acc * 10 + (code c - 48)) d 0.

(** The pre-release [Parse] cuts from its argument: what follows the first
    dash, or the empty string. *)
Definition preReleaseString (s : gostring) : outcome gostring :=
  let i := Index s (str "-") in
  if i <? 0 then Returns [] else slice s (i + 1) (len s).

(** * Properties *)

(** ** The matcher decides the language *)

Section Matcher.

Lemma Matches_Cat_inv (r1 r2 : regex) (s : list rune) :
  Matches (Cat r1 r2) s ->
  exists u v, s = u ++ v /\ Matches r1 u /\ Matches r2 v.
Proof. intros H; inversion H; subst; eauto. Qed.

Lemma Matches_Alt_inv (r1 r2 : regex) (s : list rune) :
  Matches (Alt r1 r2) s -> Matches r1 s \/ Matches r2 s.
Proof. intros H; inversion H; subst; auto. Qed.

Lemma Matches_Lit_inv (c : rune) (s : list rune) :
  Matches (Lit c) s -> s = [c].
Proof. intros H; inversion H; reflexivity. Qed.

Lemma Matches_Class_inv (rs : list (rune * rune)) (s : list rune) :
  Matches (Class rs) s -> exists c, s = [c] /\ inClass rs c = true.
Proof. intros H; inversion H; subst; eauto. Qed.

Lemma Matches_Any_inv (s : list rune) :
  Matches AnyNotNL s -> exists c, s = [c] /\ c <> 10.
Proof. intros H; inversion H; subst; eauto. Qed.

Lemma Matches_Eps_inv (s : list rune) : Matches Eps s -> s = [].
Proof. intros H; inversion H; reflexivity. Qed.

Lemma Matches_Void_inv (s : list rune) : ~ Matches Void s.
Proof. intros H; inversion H. Qed.

Lemma Matches_Star_cons (r : regex) (c : rune) (s : list rune) :
  Matches (Star r) (c :: s) ->
  exists u v, s = u ++ v /\ Matches r (c :: u) /\ Matches (Star r) v.
Proof.
  intros H. remember (Star r) as r' eqn:Er. remember (c :: s) as w eqn:Ew.
  revert s Ew.
  induction H as [| | | | | | | | r0 u v Hu _ Hv IHv]; intros s Ew;
    try discriminate.
  injection Er as ->.
  destruct u as [| x u].
  - simpl in Ew. apply IHv; [reflexivity | assumption].
  - simpl in Ew. injection Ew as -> <-.
    exists u, v. repeat split; assumption.
Qed.

Lemma nullable_Matches (r : regex) : nullable r = true <-> Matches r [].
Proof.
  induction r; simpl; split; intros H;
    try discriminate; try (constructor; fail); try reflexivity;
    try (inversion H; fail).
  - apply andb_true_iff in H as [H1 H2].
    change (@nil rune) with (@nil rune ++ []).
    constructor; [apply IHr1 | apply IHr2]; assumption.
  - apply Matches_Cat_inv in H as (u & v & Heq & Hu & Hv).
    symmetry in Heq. apply app_eq_nil in Heq as [-> ->].
    apply andb_true_iff; split; [apply IHr1 | apply IHr2]; assumption.
  - apply orb_true_iff in H as [H | H];
      [apply MAltL, IHr1 | apply MAltR, IHr2]; assumption.
  - apply orb_true_iff.
    apply Matches_Alt_inv in H as [H | H];
      [left; apply IHr1 | right; apply IHr2]; assumption.
Qed.

Lemma Matches_cons_Cat (r1 r2 : regex) (c : rune) (u v : list rune) :
  Matches r1 (c :: u) -> Matches r2 v -> Matches (Cat r1 r2) (c :: u ++ v).
Proof. intros H1 H2. apply (MCat r1 r2 (c :: u) v); assumption. Qed.

Lemma deriv_sound (r : regex) :
  forall c s, Matches (deriv c r) s -> Matches r (c :: s).
Proof.
  induction r; simpl; intros c0 s H.
  - inversion H.
  - inversion H.
  - destruct (Z.eqb_spec c0 c); [| inversion H].
    apply Matches_Eps_inv in H. subst. constructor.
  - destruct (inClass rs c0) eqn:E; [| inversion H].
    apply Matches_Eps_inv in H. subst. constructor; assumption.
  - destruct (Z.eqb_spec c0 10); [inversion H |].
    apply Matches_Eps_inv in H. subst. constructor; assumption.
  - destruct (nullable r1) eqn:N.
    + apply Matches_Alt_inv in H as [H | H].
      * apply Matches_Cat_inv in H as (u & v & -> & Hu & Hv).
        apply Matches_cons_Cat; [apply IHr1 |]; assumption.
      * apply (MCat r1 r2 [] (c0 :: s));
          [apply nullable_Matches | apply IHr2]; assumption.
    + apply Matches_Cat_inv in H as (u & v & -> & Hu & Hv).
      apply Matches_cons_Cat; [apply IHr1 |]; assumption.
  - apply Matches_Alt_inv in H as [H | H];
      [apply MAltL, IHr1 | apply MAltR, IHr2]; assumption.
  - apply Matches_Cat_inv in H as (u & v & -> & Hu & Hv).
    apply (MStarS r (c0 :: u) v); [apply IHr |]; assumption.
Qed.

Lemma deriv_complete (r : regex) :
  forall c s, Matches r (c :: s) -> Matches (deriv c r) s.
Proof.
  induction r; simpl; intros c0 s H.
  - inversion H.
  - inversion H.
  - apply Matches_Lit_inv in H. injection H as -> ->.
    rewrite Z.eqb_refl. constructor.
  - apply Matches_Class_inv in H as (x & Heq & Hc).
    injection Heq as -> ->. rewrite Hc. constructor.
  - apply Matches_Any_inv in H as (x & Heq & Hc).
    injection Heq as -> ->.
    destruct (Z.eqb_spec x 10); [contradiction | constructor].
  - apply Matches_Cat_inv in H as (u & v & Heq & Hu & Hv).
    destruct u as [| x u]; simpl in Heq.
    + subst v. apply nullable_Matches in Hu. rewrite Hu.
      apply MAltR, IHr2; assumption.
    + injection Heq as -> ->.
      assert (Matches (Cat (deriv x r1) r2) (u ++ v))
        by (constructor; [apply IHr1 |]; assumption).
      destruct (nullable r1); [apply MAltL |]; assumption.
  - apply Matches_Alt_inv in H as [H | H];
      [apply MAltL, IHr1 | apply MAltR, IHr2]; assumption.
  - apply Matches_Star_cons in H as (u & v & -> & Hu & Hv).
    constructor; [apply IHr |]; assumption.
Qed.

Theorem matchb_Matches (r : regex) (s : list rune) :
  matchb r s = true <-> Matches r s.
Proof.
  revert r; induction s as [| c s IH]; intros r; simpl.
  - apply nullable_Matches.
  - rewrite IH. split; [apply deriv_sound | apply deriv_complete].
Qed.

End Matcher.

(** ** The order of strings *)

Section StringOrder.

Lemma code_inj (x y : ascii) : code x = code y -> x = y.
Proof.
  unfold code. intros H. apply N2Z.inj in H.
  rewrite <- (ascii_N_embedding x), <- (ascii_N_embedding y), H.
  reflexivity.
Qed.

Lemma code_range (x : ascii) : 0 <= code x < 256.
Proof.
  unfold code. pose proof (N_ascii_bounded x). lia.
Qed.

Lemma strcmp_refl (a : gostring) : strcmp a a = Eq.
Proof.
  induction a as [| x a IH]; simpl; [reflexivity |].
  rewrite Z.compare_refl. exact IH.
Qed.

Lemma strcmp_eq (a : gostring) : forall b, strcmp a b = Eq -> a = b.
Proof.
  induction a as [| x a IH]; intros [| y b]; simpl; intros H;
    try discriminate; [reflexivity |].
  destruct (code x ?= code y) eqn:E; try discriminate.
  apply Z.compare_eq in E. apply code_inj in E. subst y.
  f_equal. apply IH. exact H.
Qed.

Lemma strcmp_antisym (a : gostring) :
  forall b, strcmp b a = CompOpp (strcmp a b).
Proof.
  induction a as [| x a IH]; intros [| y b]; simpl; try reflexivity.
  rewrite (Z.compare_antisym (code x) (code y)).
  destruct (code x ?= code y); simpl; [apply IH | reflexivity | reflexivity].
Qed.

Lemma strcmp_trans (a : gostring) :
  forall b c, strcmp a b = Lt -> strcmp b c = Lt -> strcmp a c = Lt.
Proof.
  induction a as [| x a IH]; intros [| y b] [| z c]; simpl;
    try discriminate; try reflexivity.
  destruct (Z.compare_spec (code x) (code y)) as [E1 | L1 | G1];
    try discriminate;
    destruct (Z.compare_spec (code y) (code z)) as [E2 | L2 | G2];
    try discriminate; intros H1 H2.
  - rewrite E1, E2, Z.compare_refl. eapply IH; eassumption.
  - rewrite E1. apply Z.compare_lt_iff in L2. rewrite L2. reflexivity.
  - rewrite <- E2. apply Z.compare_lt_iff in L1. rewrite L1. reflexivity.
  - assert (L : code x < code z) by lia.
    apply Z.compare_lt_iff in L. rewrite L. reflexivity.
Qed.

Lemma strlt_irrefl (a : gostring) : strlt a a = false.
Proof. unfold strlt. rewrite strcmp_refl. reflexivity. Qed.

Lemma strlt_asym (a b : gostring) : strlt a b = true -> strlt b a = false.
Proof.
  unfold strlt. rewrite (strcmp_antisym a b).
  destruct (strcmp a b); simpl; congruence.
Qed.

Lemma strlt_trans (a b c : gostring) :
  strlt a b = true -> strlt b c = true -> strlt a c = true.
Proof.
  unfold strlt. intros H1 H2.
  destruct (strcmp a b) eqn:E1; try discriminate.
  destruct (strcmp b c) eqn:E2; try discriminate.
  rewrite (strcmp_trans a b c E1 E2). reflexivity.
Qed.

Lemma strlt_total (a b : gostring) :
  strlt a b = false -> strlt b a = false -> a = b.
Proof.
  unfold strlt. rewrite (strcmp_antisym a b).
  destruct (strcmp a b) eqn:E; simpl; try discriminate.
  intros _ _. apply strcmp_eq. exact E.
Qed.

(** The empty string is below every other string. *)
Lemma strlt_nil (b : gostring) : b <> [] -> strlt [] b = true.
Proof. destruct b; [congruence | reflexivity]. Qed.

(** [strlt] is the lexicographic order of the bytes: after a common
    prefix, the left string ends first or has the smaller byte. *)
Lemma strlt_lexicographic (a b : gostring) :
  strlt a b = true <->
  exists p a' b', a = p ++ a' /\ b = p ++ b' /\
    match a', b' with
    | [], _ :: _ => True
    | x :: _, y :: _ => code x < code y
    | _, _ => False
    end.
Proof.
  unfold strlt. split.
  - revert b. induction a as [| x a IH]; intros [| y b]; simpl;
      try discriminate.
    + intros _. exists [], [], (y :: b). auto.
    + destruct (Z.compare_spec (code x) (code y)) as [E | L | G];
        try discriminate.
      * intros H. apply code_inj in E. subst y.
        destruct (IH b H) as (p & a' & b' & -> & -> & Hab).
        exists (x :: p), a', b'. auto.
      * intros _. exists [], (x :: a), (y :: b). auto.
  - intros (p & a' & b' & -> & -> & Hab).
    induction p as [| c p IH]; simpl.
    + destruct a' as [| x a'], b' as [| y b']; try contradiction;
        simpl; [reflexivity |].
      apply Z.compare_lt_iff in Hab. rewrite Hab. reflexivity.
    + rewrite Z.compare_refl. exact IH.
Qed.

End StringOrder.

(** ** Compare *)

Ltac compare_cases :=
  unfold Version_Compare, precedes, sameFields;
  repeat match goal with
         | |- context [Z.ltb ?x ?y] => destruct (Z.ltb_spec x y)
         | |- context [strlt ?x ?y] =>
             let E := fresh "E" in destruct (strlt x y) eqn:E
         end.

Lemma Compare_range (v w : Version) :
  Version_Compare v w = -1 \/ Version_Compare v w = 0 \/
  Version_Compare v w = 1.
Proof. compare_cases; auto. Qed.

Lemma Compare_lt_iff (v w : Version) :
  Version_Compare v w = -1 <-> precedes v w.
Proof.
  compare_cases; split; intros Hc; try discriminate; try lia;
    try (left; lia);
    try (right; split; [lia |]; left; lia);
    try (right; split; [lia |]; right; split; [lia |]; left; lia);
    try (right; split; [lia |]; right; split; [lia |];
         right; split; [lia | assumption]);
    exfalso;
    destruct Hc as [Hc | (? & [Hc | (? & [Hc | (? & Hc)])])];
    try lia; congruence.
Qed.

Lemma Compare_eq_iff (v w : Version) :
  Version_Compare v w = 0 <-> sameFields v w.
Proof.
  compare_cases; split; intros Hc; try discriminate; try reflexivity;
    try (destruct Hc as (? & ? & ? & Hc); exfalso; lia).
  - exfalso. destruct Hc as (_ & _ & _ & Hc). rewrite Hc, strlt_irrefl in E.
    discriminate.
  - exfalso. destruct Hc as (_ & _ & _ & Hc). rewrite Hc, strlt_irrefl in E0.
    discriminate.
  - repeat split; try lia. apply strlt_total; assumption.
Qed.

Lemma Compare_antisym (v w : Version) :
  Version_Compare v w = - Version_Compare w v.
Proof.
  compare_cases; try reflexivity; try lia.
  apply strlt_asym in E. congruence.
Qed.

Lemma precedes_trans (u v w : Version) :
  precedes u v -> precedes v w -> precedes u w.
Proof.
  unfold precedes. intros H1 H2.
  destruct H1 as [H1 | (E1 & [H1 | (E1' & [H1 | (E1'' & H1)])])];
    destruct H2 as [H2 | (E2 & [H2 | (E2' & [H2 | (E2'' & H2)])])];
    try (left; lia);
    try (right; split; [lia |]; left; lia);
    try (right; split; [lia |]; right; split; [lia |]; left; lia).
  right; split; [lia |]; right; split; [lia |]; right; split; [lia |].
  eapply strlt_trans; eassumption.
Qed.

(** ** Decimal digits: rendering, decoding and parsing *)

Section Decimal.

Lemma code_digitByte (d : Z) : 0 <= d <= 9 -> code (digitByte d) = 48 + d.
Proof.
  intros Hd. unfold code, digitByte.
  rewrite N_ascii_embedding; change (chr "0") with 48; lia.
Qed.

Lemma isDigitByte_digitByte (d : Z) : 0 <= d <= 9 -> isDigitByte (digitByte d).
Proof. intros Hd. unfold isDigitByte. rewrite code_digitByte; lia. Qed.

(** The first digit is not zero unless the number is, and digits follow. *)
Lemma fmtInteger_shape (fuel : nat) :
  forall u buf, 0 < u < 2 ^ (Z.of_nat fuel + 1) ->
    Forall isDigitByte buf ->
    exists d ds, fmtInteger fuel u buf = digitByte d :: ds /\
                 1 <= d <= 9 /\ Forall isDigitByte ds.
Proof.
  induction fuel as [| fuel IH]; intros u buf Hu Hbuf.
  - simpl in *. exists u, buf. repeat split; try assumption; lia.
  - cbn [fmtInteger]. destruct (Z.leb_spec 10 u) as [H10 | H10].
    + apply IH.
      * rewrite Nat2Z.inj_succ in Hu.
        replace (Z.succ (Z.of_nat fuel) + 1) with (1 + (Z.of_nat fuel + 1))
          in Hu by lia.
        rewrite Z.pow_add_r, Z.pow_1_r in Hu by lia.
        split; [apply Z.div_str_pos; lia |].
        apply Z.div_lt_upper_bound; lia.
      * constructor; [| assumption].
        apply isDigitByte_digitByte.
        pose proof (Z.mod_pos_bound u 10 ltac:(lia)).
        pose proof (Z.div_mod u 10 ltac:(lia)). lia.
    + exists u, buf. repeat split; try assumption; lia.
Qed.

Lemma fmtUint_zero : fmtUint 0 = [digitByte 0].
Proof. reflexivity. Qed.

Lemma log2_fuel (u : Z) :
  0 < u -> 0 < u < 2 ^ (Z.of_nat (Z.to_nat (Z.log2 u)) + 1).
Proof.
  intros Hu. rewrite Z2Nat.id by apply Z.log2_nonneg.
  pose proof (Z.log2_spec u Hu). lia.
Qed.

Lemma fmtUint_shape (u : Z) :
  0 < u ->
  exists d ds, fmtUint u = digitByte d :: ds /\
               1 <= d <= 9 /\ Forall isDigitByte ds.
Proof.
  intros Hu. apply fmtInteger_shape; [apply log2_fuel; assumption |].
  constructor.
Qed.

Lemma fmtUint_digits (u : Z) : 0 <= u -> Forall isDigitByte (fmtUint u).
Proof.
  intros Hu. destruct (Z.eq_dec u 0) as [-> | Hn].
  - rewrite fmtUint_zero. constructor; [| constructor].
    apply isDigitByte_digitByte; lia.
  - destruct (fmtUint_shape u ltac:(lia)) as (d & ds & -> & Hd & Hds).
    constructor; [apply isDigitByte_digitByte; lia | assumption].
Qed.

Lemma fmtUint_nonempty (u : Z) : 0 <= u -> fmtUint u <> [].
Proof.
  intros Hu. destruct (Z.eq_dec u 0) as [-> | Hn].
  - rewrite fmtUint_zero. discriminate.
  - destruct (fmtUint_shape u ltac:(lia)) as (d & ds & -> & _).
    discriminate.
Qed.

(** *** Decoding: an ASCII byte is a rune of its own *)

Lemma runes_cons_ascii (c : ascii) (t : gostring) :
  code c < 128 -> runes (c :: t) = code c :: runes t.
Proof.
  intros Hc. cbn [runes]. unfold first.
  destruct (Z.ltb_spec (code c) 194); [| lia].
  destruct (Z.ltb_spec (code c) 128); [reflexivity | lia].
Qed.

Lemma runes_app_ascii (s t : gostring) :
  Forall (fun c => code c < 128) s -> runes (s ++ t) = map code s ++ runes t.
Proof.
  induction 1 as [| c s Hc _ IH]; [reflexivity |].
  cbn [app map]. rewrite runes_cons_ascii, IH by assumption. reflexivity.
Qed.

Lemma digits_ascii (s : gostring) :
  Forall isDigitByte s -> Forall (fun c => code c < 128) s.
Proof.
  apply Forall_impl. unfold isDigitByte. intros c Hc. lia.
Qed.

(** *** The grammar accepts a rendered number *)

Lemma between_spec (lo hi x : Z) :
  between lo hi x = true <-> lo <= x <= hi.
Proof. unfold between. rewrite andb_true_iff, !Z.leb_le. reflexivity. Qed.

Lemma Matches_Class_range (lo hi c : Z) :
  lo <= c <= hi -> Matches (Class [(lo, hi)]) [c].
Proof.
  intros Hc. constructor. unfold inClass. cbn [existsb fst snd].
  rewrite orb_false_r. apply between_spec. exact Hc.
Qed.

Lemma Matches_Star_digits (ds : gostring) :
  Forall isDigitByte ds -> Matches (Star digit09) (map code ds).
Proof.
  induction 1 as [| c ds Hc _ IH]; simpl; [constructor |].
  apply (MStarS digit09 [code c] (map code ds)); [| assumption].
  apply Matches_Class_range. exact Hc.
Qed.

Lemma Matches_number_fmtUint (u : Z) :
  0 <= u -> Matches number (map code (fmtUint u)).
Proof.
  intros Hu. unfold number. destruct (Z.eq_dec u 0) as [-> | Hn].
  - apply MAltL. cbn. constructor.
  - destruct (fmtUint_shape u ltac:(lia)) as (d & ds & -> & Hd & Hds).
    apply MAltR. cbn [map].
    apply (MCat digit19 (Star digit09) [code (digitByte d)] (map code ds));
      [| apply Matches_Star_digits; assumption].
    apply Matches_Class_range. rewrite code_digitByte by lia.
    change (chr "1") with 49. change (chr "9") with 57. lia.
Qed.

(** *** Parsing a rendered number gives the number back *)

Lemma parseDigits_step (maxVal : Z) (s0 rest : gostring) (n d : Z) :
  0 <= n -> 0 <= d <= 9 -> n * 10 + d <= maxVal -> maxVal <= maxUint64 ->
  parseDigits 10 (maxUint64 / 10 + 1) maxVal s0 (digitByte d :: rest) n
  = parseDigits 10 (maxUint64 / 10 + 1) maxVal s0 rest (n * 10 + d).
Proof.
  intros Hn Hd Hle Hmax. cbn [parseDigits].
  rewrite code_digitByte by assumption.
  change (chr "0") with 48. change (chr "9") with 57.
  destruct (between 48 57 (48 + d)) eqn:Hb;
    [| rewrite <- not_true_iff_false, between_spec in Hb; lia].
  replace (48 + d - 48) with d by lia.
  destruct (Z.geb_spec d 10); [lia |].
  assert (Hcut : n < maxUint64 / 10 + 1).
  { assert (n <= maxUint64 / 10)
      by (apply Z.div_le_lower_bound; lia). lia. }
  destruct (Z.geb_spec n (maxUint64 / 10 + 1)); [lia |].
  unfold wrap64. change (2 ^ 64) with (maxUint64 + 1).
  rewrite (Z.mod_small (n * 10)) by lia.
  rewrite (Z.mod_small (n * 10 + d)) by lia.
  destruct (Z.ltb_spec (n * 10 + d) (n * 10)); [lia |].
  destruct (Z.gtb_spec (n * 10 + d) maxVal); [lia |].
  reflexivity.
Qed.

Lemma parseDigits_fmtInteger (maxVal : Z) (s0 : gostring) (fuel : nat) :
  forall u buf,
    0 <= u < 2 ^ (Z.of_nat fuel + 1) -> u <= maxVal -> maxVal <= maxUint64 ->
    parseDigits 10 (maxUint64 / 10 + 1) maxVal s0 (fmtInteger fuel u buf) 0
    = parseDigits 10 (maxUint64 / 10 + 1) maxVal s0 buf u.
Proof.
  induction fuel as [| fuel IH]; intros u buf Hu Hle Hmax.
  - simpl in Hu. cbn [fmtInteger].
    rewrite parseDigits_step by lia. reflexivity.
  - cbn [fmtInteger]. destruct (Z.leb_spec 10 u) as [H10 | H10].
    + pose proof (Z.mod_pos_bound u 10 ltac:(lia)).
      pose proof (Z.div_mod u 10 ltac:(lia)).
      rewrite IH; try lia.
      * rewrite parseDigits_step by lia. f_equal. lia.
      * rewrite Nat2Z.inj_succ in Hu.
        replace (Z.succ (Z.of_nat fuel) + 1) with (1 + (Z.of_nat fuel + 1))
          in Hu by lia.
        rewrite Z.pow_add_r, Z.pow_1_r in Hu by lia.
        split; [apply Z.div_pos; lia |].
        apply Z.div_lt_upper_bound; lia.
    + rewrite parseDigits_step by lia. reflexivity.
Qed.

Lemma maxVal_IntSize (a : arch) :
  wrap64 (wrap64 (Z.shiftl 1 (IntSize a)) - 1) = 2 ^ IntSize a - 1.
Proof. destruct a; reflexivity. Qed.

Lemma IntSize_le_64 (a : arch) : 2 ^ IntSize a - 1 <= maxUint64.
Proof. destruct a; unfold maxUint64; simpl; lia. Qed.

Theorem ParseUint_fmtUint (a : arch) (u : Z) :
  isUint a u -> ParseUint (fmtUint u) (IntSize a) = (u, None).
Proof.
  intros [Hlo Hhi]. unfold ParseUint.
  destruct (fmtUint u) eqn:E; [exfalso; revert E; apply fmtUint_nonempty; lia |].
  rewrite <- E. rewrite maxVal_IntSize.
  unfold fmtUint at 2. rewrite parseDigits_fmtInteger.
  - reflexivity.
  - destruct (Z.eq_dec u 0) as [-> | Hn]; [simpl; lia |].
    pose proof (log2_fuel u ltac:(lia)). lia.
  - lia.
  - apply IntSize_le_64.
Qed.

End Decimal.

(** ** A rune below 128 is a byte of the string *)

Section Utf8.

Lemma lor_ge_128 (x y : Z) :
  0 <= x -> 0 <= y -> 128 <= x \/ 128 <= y -> 128 <= Z.lor x y.
Proof.
  intros Hx Hy H.
  assert (H0 : 0 <= Z.lor x y) by (apply Z.lor_nonneg; split; assumption).
  assert (Hl : 7 <= Z.log2 (Z.lor x y)).
  { rewrite Z.log2_lor by assumption.
    change 7 with (Z.log2 128).
    destruct H as [H | H]; apply Z.log2_le_mono in H; lia. }
  destruct (Z.eq_dec (Z.lor x y) 0) as [E | E];
    [rewrite E in Hl; simpl in Hl; lia |].
  pose proof (Z.log2_spec (Z.lor x y) ltac:(lia)) as [Hs _].
  assert (2 ^ 7 <= 2 ^ Z.log2 (Z.lor x y))
    by (apply Z.pow_le_mono_r; lia).
  change (2 ^ 7) with 128 in *. lia.
Qed.

Lemma rune2_ge (s0 s1 : Z) :
  194 <= s0 <= 223 ->
  128 <= Z.lor (Z.shiftl (Z.land s0 mask2) 6) (Z.land s1 maskx).
Proof.
  intros H0.
  change mask2 with (Z.ones 5). change maskx with (Z.ones 6).
  rewrite Z.shiftl_mul_pow2, !Z.land_ones by lia.
  change (2 ^ 6) with 64. change (2 ^ 5) with 32.
  apply lor_ge_128.
  - Z.div_mod_to_equations; lia.
  - Z.div_mod_to_equations; lia.
  - left. Z.div_mod_to_equations; lia.
Qed.

Lemma rune3_ge (s0 s1 s2 : Z) :
  224 <= s0 <= 239 -> 128 <= s1 <= 191 -> (s0 = 224 -> 160 <= s1) ->
  128 <= Z.lor (Z.lor (Z.shiftl (Z.land s0 mask3) 12)
                      (Z.shiftl (Z.land s1 maskx) 6))
               (Z.land s2 maskx).
Proof.
  intros H0 H1 H01.
  change mask3 with (Z.ones 4). change maskx with (Z.ones 6).
  rewrite !Z.shiftl_mul_pow2, !Z.land_ones by lia.
  change (2 ^ 6) with 64. change (2 ^ 4) with 16. change (2 ^ 12) with 4096.
  assert (128 <= Z.lor (s0 mod 16 * 4096) (s1 mod 64 * 64)).
  { apply lor_ge_128.
    - Z.div_mod_to_equations; lia.
    - Z.div_mod_to_equations; lia.
    - destruct (Z.eq_dec s0 224) as [E | E].
      + right. specialize (H01 E). Z.div_mod_to_equations; lia.
      + left. Z.div_mod_to_equations; lia. }
  apply lor_ge_128; [lia | Z.div_mod_to_equations; lia | left; assumption].
Qed.

Lemma rune4_ge (s0 s1 s2 s3 : Z) :
  240 <= s0 <= 244 -> 128 <= s1 <= 191 -> (s0 = 240 -> 144 <= s1) ->
  128 <= Z.lor (Z.lor (Z.lor (Z.shiftl (Z.land s0 mask4) 18)
                             (Z.shiftl (Z.land s1 maskx) 12))
                      (Z.shiftl (Z.land s2 maskx) 6))
               (Z.land s3 maskx).
Proof.
  intros H0 H1 H01.
  change mask4 with (Z.ones 3). change maskx with (Z.ones 6).
  rewrite !Z.shiftl_mul_pow2, !Z.land_ones by lia.
  change (2 ^ 6) with 64. change (2 ^ 3) with 8. change (2 ^ 12) with 4096.
  change (2 ^ 18) with 262144.
  assert (128 <= Z.lor (s0 mod 8 * 262144) (s1 mod 64 * 4096)).
  { apply lor_ge_128.
    - Z.div_mod_to_equations; lia.
    - Z.div_mod_to_equations; lia.
    - destruct (Z.eq_dec s0 240) as [E | E].
      + right. specialize (H01 E). Z.div_mod_to_equations; lia.
      + left. Z.div_mod_to_equations; lia. }
  assert (128 <= Z.lor (Z.lor (s0 mod 8 * 262144) (s1 mod 64 * 4096))
                       (s2 mod 64 * 64)).
  { apply lor_ge_128; [lia | Z.div_mod_to_equations; lia | left; assumption]. }
  apply lor_ge_128; [lia | Z.div_mod_to_equations; lia | left; assumption].
Qed.

Lemma first_spec (b sz lo hi : Z) :
  first b = Some (sz, (lo, hi)) ->
  128 <= lo /\ hi <= 191 /\
  (sz = 2 /\ 194 <= b <= 223 \/
   sz = 3 /\ 224 <= b <= 239 /\ (b = 224 -> 160 <= lo) \/
   sz = 4 /\ 240 <= b <= 244 /\ (b = 240 -> 144 <= lo)).
Proof.
  unfold first, locb, hicb.
  repeat match goal with
         | |- context [Z.ltb ?x ?y] => destruct (Z.ltb_spec x y)
         | |- context [Z.leb ?x ?y] => destruct (Z.leb_spec x y)
         | |- context [Z.eqb ?x ?y] => destruct (Z.eqb_spec x y)
         end;
    intros E; inversion E; subst; lia.
Qed.

Lemma runes_head (c : ascii) (t : gostring) :
  exists r rs, runes (c :: t) = r :: rs /\
    (r < 128 -> r = code c /\ rs = runes t).
Proof.
  destruct (Z.ltb_spec (code c) 128) as [Hc | Hc].
  - rewrite runes_cons_ascii by assumption. eauto.
  - cbn [runes]. cbv zeta.
    assert (HE : 128 <= RuneError) by (unfold RuneError; lia).
    destruct (first (code c)) as [[sz [lo hi]] |] eqn:Ef.
    + apply first_spec in Ef as (Hlo & Hhi & Hsz).
      destruct t as [| c1 t1]; [eexists _, _; split; [reflexivity | lia] |].
      destruct (between lo hi (code c1)) eqn:B1; cbn [negb];
        [| eexists _, _; split; [reflexivity | lia]].
      apply between_spec in B1.
      destruct (Z.leb_spec sz 2).
      { eexists _, _; split; [reflexivity |].
        pose proof (rune2_ge (code c) (code c1)). lia. }
      destruct t1 as [| c2 t2]; [eexists _, _; split; [reflexivity | lia] |].
      destruct (between locb hicb (code c2)) eqn:B2; cbn [negb];
        [| eexists _, _; split; [reflexivity | lia]].
      destruct (Z.leb_spec sz 3).
      { eexists _, _; split; [reflexivity |].
        pose proof (rune3_ge (code c) (code c1) (code c2)). lia. }
      destruct t2 as [| c3 t3]; [eexists _, _; split; [reflexivity | lia] |].
      destruct (between locb hicb (code c3)) eqn:B3; cbn [negb];
        [| eexists _, _; split; [reflexivity | lia]].
      eexists _, _; split; [reflexivity |].
      pose proof (rune4_ge (code c) (code c1) (code c2) (code c3)). lia.
    + destruct (Z.ltb_spec (code c) 128); [lia |].
      eexists _, _; split; [reflexivity | lia].
Qed.

Lemma runes_ascii_inv (s : gostring) :
  Forall (fun r => r < 128) (runes s) -> runes s = map code s.
Proof.
  induction s as [| c t IH]; [reflexivity |].
  destruct (runes_head c t) as (r & rs & E & H). rewrite E.
  intros HF. inversion HF as [| ? ? Hr Hrs]; subst.
  destruct (H Hr) as [-> ->]. cbn [map]. f_equal. apply IH. assumption.
Qed.

End Utf8.

(** ** Index, Split and slices on a string with a known separator *)

Section Separators.

Variable c : ascii.

Lemma HasPrefix_single (s : gostring) :
  HasPrefix s [c] = match s with
                    | [] => false
                    | x :: _ => Ascii.eqb x c
                    end.
Proof.
  destruct s as [| x s]; cbn [HasPrefix]; [reflexivity |].
  destruct s; apply andb_true_r.
Qed.

Lemma Index_single_absent (s : gostring) :
  Forall (fun x => x <> c) s -> Index s [c] = -1.
Proof.
  induction 1 as [| x s Hx _ IH]; [reflexivity |].
  cbn [Index]. rewrite HasPrefix_single.
  apply Ascii.eqb_neq in Hx. rewrite Hx, IH. reflexivity.
Qed.

Lemma Index_single_first (s t : gostring) :
  Forall (fun x => x <> c) s -> Index (s ++ c :: t) [c] = len s.
Proof.
  induction 1 as [| x s Hx _ IH].
  - cbn [app Index]. rewrite HasPrefix_single, Ascii.eqb_refl. reflexivity.
  - cbn [app Index]. rewrite HasPrefix_single.
    apply Ascii.eqb_neq in Hx. rewrite Hx, IH.
    unfold len. destruct (Z.ltb_spec (Z.of_nat (List.length s)) 0); [lia |].
    cbn [List.length]. lia.
Qed.

Lemma genSplit_cut (fuel : nat) (d t : gostring) :
  Forall (fun x => x <> c) d ->
  genSplit (S fuel) (d ++ c :: t) [c] = d :: genSplit fuel t [c].
Proof.
  intros Hd. cbn [genSplit]. rewrite Index_single_first by assumption.
  unfold len. destruct (Z.ltb_spec (Z.of_nat (List.length d)) 0); [lia |].
  rewrite Nat2Z.id. f_equal.
  - rewrite firstn_app, firstn_all, Nat.sub_diag. cbn [firstn].
    apply app_nil_r.
  - f_equal. rewrite skipn_app, skipn_all2 by (cbn [List.length]; lia).
    replace (List.length d + List.length [c] - List.length d)%nat
      with 1%nat by (cbn [List.length]; lia).
    reflexivity.
Qed.

Lemma genSplit_last (fuel : nat) (d : gostring) :
  Forall (fun x => x <> c) d -> genSplit fuel d [c] = [d].
Proof.
  intros Hd. destruct fuel; [reflexivity |].
  cbn [genSplit]. rewrite Index_single_absent by assumption. reflexivity.
Qed.

(** Three pieces free of the separator are the three fields of their
    join. *)
Lemma Split_three (d1 d2 d3 : gostring) :
  Forall (fun x => x <> c) d1 -> Forall (fun x => x <> c) d2 ->
  Forall (fun x => x <> c) d3 ->
  Split (d1 ++ c :: d2 ++ c :: d3) [c] = [d1; d2; d3].
Proof.
  intros H1 H2 H3. unfold Split.
  assert (E : exists k, List.length (d1 ++ c :: d2 ++ c :: d3) = S (S k)).
  { rewrite length_app. cbn [List.length]. rewrite length_app.
    cbn [List.length].
    exists (List.length d1 + (List.length d2 + List.length d3))%nat. lia. }
  destruct E as [k ->].
  rewrite genSplit_cut by assumption.
  rewrite genSplit_cut by assumption.
  rewrite genSplit_last by assumption. reflexivity.
Qed.

End Separators.

Section Slices.

Lemma len_app {A} (s t : list A) : len (s ++ t) = len s + len t.
Proof. unfold len. rewrite length_app. lia. Qed.

Lemma len_nonneg {A} (s : list A) : 0 <= len s.
Proof. unfold len. lia. Qed.

Lemma slice_middle (x y z : gostring) :
  slice (x ++ y ++ z) (len x) (len x + len y) = Returns y.
Proof.
  unfold slice. rewrite !len_app.
  pose proof (len_nonneg x). pose proof (len_nonneg y).
  pose proof (len_nonneg z).
  destruct (Z.leb_spec 0 (len x)); [| lia].
  destruct (Z.leb_spec (len x) (len x + len y)); [| lia].
  destruct (Z.leb_spec (len x + len y) (len x + (len y + len z))); [| lia].
  cbn [andb]. f_equal.
  replace (len x + len y - len x) with (len y) by lia.
  unfold len. rewrite !Nat2Z.id.
  rewrite skipn_app, skipn_all, Nat.sub_diag. cbn [skipn app].
  rewrite firstn_app, firstn_all, Nat.sub_diag. cbn [firstn].
  apply app_nil_r.
Qed.

Lemma slice_suffix (x y : gostring) :
  slice (x ++ y) (len x) (len (x ++ y)) = Returns y.
Proof.
  rewrite len_app. rewrite <- (app_nil_r y) at 1.
  apply slice_middle.
Qed.

End Slices.

(** ** The rendering of a version *)

Section Rendering.

Lemma Version_String_plain (v : Version) :
  preRelease v = [] -> Version_String v = "v"%char :: numericPart v.
Proof. unfold Version_String. intros ->. reflexivity. Qed.

Lemma Version_String_pre (v : Version) :
  preRelease v <> [] ->
  Version_String v
  = ("v"%char :: numericPart v) ++ "-"%char :: preRelease v.
Proof.
  unfold Version_String, numericPart. destruct (preRelease v) as [| c p];
    [congruence |]. intros _.
  cbn [str list_ascii_of_string app].
  rewrite <- !app_assoc. cbn [app].
  rewrite <- !app_assoc. cbn [app]. reflexivity.
Qed.

Lemma digit_not_dash (x : ascii) : isDigitByte x -> x <> "-"%char.
Proof. intros H ->. unfold isDigitByte in H. cbn in H. lia. Qed.

Lemma digit_not_dot (x : ascii) : isDigitByte x -> x <> "."%char.
Proof. intros H ->. unfold isDigitByte in H. cbn in H. lia. Qed.

Lemma fmtUint_no_dot (u : Z) :
  0 <= u -> Forall (fun x => x <> "."%char) (fmtUint u).
Proof.
  intros Hu. eapply Forall_impl; [apply digit_not_dot |].
  apply fmtUint_digits; assumption.
Qed.

Lemma fmtUint_no_dash (u : Z) :
  0 <= u -> Forall (fun x => x <> "-"%char) (fmtUint u).
Proof.
  intros Hu. eapply Forall_impl; [apply digit_not_dash |].
  apply fmtUint_digits; assumption.
Qed.

Lemma numericPart_no_dash (v : Version) :
  0 <= major v -> 0 <= minor v -> 0 <= patch v ->
  Forall (fun x => x <> "-"%char) ("v"%char :: numericPart v).
Proof.
  intros H1 H2 H3. unfold numericPart.
  constructor; [discriminate |].
  apply Forall_app; split; [apply fmtUint_no_dash; assumption |].
  constructor; [discriminate |].
  apply Forall_app; split; [apply fmtUint_no_dash; assumption |].
  constructor; [discriminate |].
  apply fmtUint_no_dash; assumption.
Qed.

Lemma numericPart_ascii (v : Version) :
  0 <= major v -> 0 <= minor v -> 0 <= patch v ->
  Forall (fun x => code x < 128) ("v"%char :: numericPart v).
Proof.
  intros H1 H2 H3. unfold numericPart.
  constructor; [cbn; lia |].
  apply Forall_app; split;
    [apply digits_ascii, fmtUint_digits; assumption |].
  constructor; [cbn; lia |].
  apply Forall_app; split;
    [apply digits_ascii, fmtUint_digits; assumption |].
  constructor; [cbn; lia |].
  apply digits_ascii, fmtUint_digits; assumption.
Qed.

(** The pattern matches [v], three numbers and two separators. *)
Lemma Matches_versionPattern_plain (nM nm np : list rune) :
  Matches number nM -> Matches number nm -> Matches number np ->
  Matches versionPattern (118 :: nM ++ 46 :: nm ++ 46 :: np).
Proof.
  intros HM Hm Hp. unfold versionPattern.
  apply (MCat _ _ [118] (nM ++ 46 :: nm ++ 46 :: np)); [apply MLit |].
  apply MCat; [assumption |].
  replace (46 :: nm ++ 46 :: np)
    with (((46 :: nm) ++ (46 :: np)) ++ [])
    by (rewrite app_nil_r; reflexivity).
  apply MCat; [| apply MAltR, MEps].
  unfold Twice.
  apply MCat.
  - apply (MCat _ _ [46] nm); [apply MAny; lia | assumption].
  - apply (MCat _ _ [46] np); [apply MAny; lia | assumption].
Qed.

(** A version without pre-release renders to a valid string. *)
Theorem IsValid_plain (M m p : Z) :
  0 <= M -> 0 <= m -> 0 <= p ->
  IsValid (Version_String (mkVersion M m p [])) = true.
Proof.
  intros HM Hm Hp. unfold IsValid, MatchString.
  apply matchb_Matches.
  rewrite Version_String_plain by reflexivity.
  rewrite <- (app_nil_r (_ :: _)).
  rewrite runes_app_ascii by (apply numericPart_ascii; assumption).
  cbn [runes]. rewrite app_nil_r.
  unfold numericPart. cbn [major minor patch map].
  rewrite map_app. cbn [map]. rewrite map_app. cbn [map].
  apply Matches_versionPattern_plain;
    apply Matches_number_fmtUint; assumption.
Qed.

End Rendering.

(** ** Parsing a rendered version *)

Section RoundTrip.

Lemma slice_tail (c : ascii) (t : gostring) :
  slice (c :: t) 1 (len (c :: t)) = Returns t.
Proof. apply (slice_suffix [c] t). Qed.

Lemma slice_fields (c d : ascii) (n r : gostring) :
  slice ((c :: n) ++ d :: r) 1 (len (c :: n)) = Returns n.
Proof.
  replace (len (c :: n)) with (len [c] + len n)
    by (unfold len; cbn [List.length]; lia).
  apply (slice_middle [c] n (d :: r)).
Qed.

Lemma slice_pre (c d : ascii) (n r : gostring) :
  slice ((c :: n) ++ d :: r) (len (c :: n) + 1) (len ((c :: n) ++ d :: r))
  = Returns r.
Proof.
  replace ((c :: n) ++ d :: r) with (((c :: n) ++ [d]) ++ r)
    by (rewrite <- app_assoc; reflexivity).
  replace (len (c :: n) + 1) with (len ((c :: n) ++ [d]))
    by (rewrite len_app; reflexivity).
  apply slice_suffix.
Qed.

Lemma wrap_small (a : arch) (n : Z) : isUint a n -> wrap a n = n.
Proof. intros H. unfold wrap. apply Z.mod_small. exact H. Qed.

Lemma Split_numericPart (v : Version) :
  0 <= major v -> 0 <= minor v -> 0 <= patch v ->
  Split (numericPart v) (str ".")
  = [fmtUint (major v); fmtUint (minor v); fmtUint (patch v)].
Proof.
  intros H1 H2 H3. apply Split_three; apply fmtUint_no_dot; assumption.
Qed.

Lemma index_0 {A} (x : A) (l : list A) : index (x :: l) 0 = Returns x.
Proof. reflexivity. Qed.

Lemma index_1 {A} (x y : A) (l : list A) :
  index (x :: y :: l) 1 = Returns y.
Proof. reflexivity. Qed.

Lemma index_2 {A} (x y z : A) (l : list A) :
  index (x :: y :: z :: l) 2 = Returns z.
Proof. reflexivity. Qed.

(** The numeric stage of [Parse] on the fields of a rendered version,
    and the final call of [New]. *)
Lemma Parse_String (a : arch) (v : Version) :
  wfVersion a v -> IsValid (Version_String v) = true ->
  Parse a (Version_String v) = Returns (v, None).
Proof.
  intros (HM & Hm & Hp) Hvalid.
  assert (H1 : 0 <= major v) by apply HM.
  assert (H2 : 0 <= minor v) by apply Hm.
  assert (H3 : 0 <= patch v) by apply Hp.
  unfold Parse. rewrite Hvalid. cbn [negb].
  change (str "-") with ["-"%char].
  assert (Hnew : New (wrap a (major v)) (wrap a (minor v)) (wrap a (patch v))
                     [PreRelease (preRelease v)] = (v, None)).
  { destruct v as [M m p pre]. cbn [major minor patch preRelease] in *.
    rewrite !wrap_small by assumption. unfold New.
    change (applyOptions [PreRelease pre] (mkVersion M m p []))
      with (mkVersion M m p pre).
    rewrite Hvalid. reflexivity. }
  destruct (preRelease v) as [| c pre] eqn:Epre.
  - rewrite Version_String_plain by assumption.
    rewrite Index_single_absent by (apply numericPart_no_dash; assumption).
    cbn [Z.ltb Z.compare]. rewrite slice_tail. cbn [bind fst snd].
    rewrite Split_numericPart by assumption.
    rewrite index_0. cbn [bind]. rewrite ParseUint_fmtUint by assumption.
    rewrite index_1. cbn [bind]. rewrite ParseUint_fmtUint by assumption.
    rewrite index_2. cbn [bind]. rewrite ParseUint_fmtUint by assumption.
    rewrite Hnew. reflexivity.
  - rewrite Version_String_pre by congruence. rewrite Epre.
    rewrite Index_single_first by (apply numericPart_no_dash; assumption).
    pose proof (len_nonneg ("v"%char :: numericPart v)) as Hlen.
    destruct (Z.ltb_spec (len ("v"%char :: numericPart v)) 0); [lia |].
    rewrite slice_fields, slice_pre. cbn [bind fst snd].
    rewrite Split_numericPart by assumption.
    rewrite index_0. cbn [bind]. rewrite ParseUint_fmtUint by assumption.
    rewrite index_1. cbn [bind]. rewrite ParseUint_fmtUint by assumption.
    rewrite index_2. cbn [bind]. rewrite ParseUint_fmtUint by assumption.
    rewrite Hnew. reflexivity.
Qed.

Lemma applyOptions_wf (a : arch) (opts : list Option) :
  (forall o, In o opts -> forall x, wfVersion a x -> wfVersion a (o x)) ->
  forall v, wfVersion a v -> wfVersion a (applyOptions opts v).
Proof.
  induction opts as [| o opts IH]; intros Hopts v Hv; [exact Hv |].
  cbn [applyOptions]. apply IH.
  - intros o' Ho'. apply Hopts. right. exact Ho'.
  - apply Hopts; [left; reflexivity | exact Hv].
Qed.

Lemma New_success (M m p : Z) (opts : list Option) (v : Version) :
  New M m p opts = (v, None) ->
  v = applyOptions opts (mkVersion M m p []) /\
  IsValid (Version_String v) = true.
Proof.
  unfold New.
  destruct (IsValid (Version_String (applyOptions opts _))) eqn:E;
    cbn [negb]; intros H; inversion H; subst.
  split; [reflexivity | exact E].
Qed.

End RoundTrip.

Lemma looser_Matches (r : regex) (s : list rune) :
  Matches r s -> forall r', looser r r' -> Matches r' s.
Proof.
  induction 1; intros r' L; inversion L; subst;
    eauto using Matches, looser_refl.
Qed.

Lemma specGrammar_looser : looser specGrammar versionPattern.
Proof.
  assert (D : looser dot AnyNotNL) by (apply looser_any; cbn; lia).
  unfold specGrammar, versionPattern, Twice, Opt.
  repeat first [ exact D | apply looser_Cat | apply looser_Alt
               | apply looser_Star | apply looser_refl ].
Qed.

(** [IsValid] accepts every string of the grammar. *)
Lemma IsValid_complete (s : gostring) :
  MatchString specGrammar s = true -> IsValid s = true.
Proof.
  unfold IsValid, MatchString. rewrite !matchb_Matches. intros H.
  exact (looser_Matches _ _ H _ specGrammar_looser).
Qed.

(** The rejections the specification lists that [IsValid] does make. *)
Lemma IsValid_rejections :
  IsValid (str "") = false /\ IsValid (str "1.2.3") = false /\
  IsValid (str "v01.0.0") = false /\ IsValid (str "v1.02.3") = false /\
  IsValid (str "v1.0.0-.abc") = false.
Proof. repeat split; reflexivity. Qed.

(** ** The numeric stage of Parse *)

Section NumericStage.

Lemma Index_single_lt (c : ascii) (s : gostring) :
  -1 <= Index s [c] /\ Index s [c] < len s \/ s = [] /\ Index s [c] = -1.
Proof.
  induction s as [| x s IH]; [right; split; reflexivity | left].
  cbn [Index]. rewrite HasPrefix_single.
  replace (len (x :: s)) with (len s + 1)
    by (unfold len; cbn [List.length]; lia).
  pose proof (len_nonneg s).
  destruct (Ascii.eqb x c); [lia |].
  destruct (Z.ltb_spec (Index s [c]) 0); [lia |].
  destruct IH as [IH | [_ IH]]; lia.
Qed.

Lemma slice_returns (s : gostring) (lo hi : Z) :
  0 <= lo <= hi -> hi <= len s -> exists r, slice s lo hi = Returns r.
Proof.
  intros [H1 H2] H3. unfold slice.
  destruct (Z.leb_spec 0 lo); [| lia].
  destruct (Z.leb_spec lo hi); [| lia].
  destruct (Z.leb_spec hi (len s)); [| lia].
  eexists. reflexivity.
Qed.

Lemma parseDigits_error (maxVal : Z) (s0 s : gostring) :
  forall n n' e,
    parseDigits 10 (maxUint64 / 10 + 1) maxVal s0 s n = (n', Some e) ->
    e = NumError "ParseUint" s0 ErrSyntax \/
    e = NumError "ParseUint" s0 ErrRange.
Proof.
  induction s as [| b s IH]; intros n n' e; cbn [parseDigits].
  - discriminate.
  - destruct (if between (chr "0") (chr "9") (code b)
              then Some (code b - chr "0")
              else if between (chr "a") (chr "z") (lower (code b))
                   then Some (lower (code b) - chr "a" + 10)
                   else None) as [d |].
    + destruct (d >=? 10);
        [intros H; inversion H; left; reflexivity |].
      destruct (n >=? maxUint64 / 10 + 1);
        [intros H; inversion H; right; reflexivity |].
      destruct (_ || _);
        [intros H; inversion H; right; reflexivity |].
      apply IH.
    + intros H; inversion H; left; reflexivity.
Qed.

Lemma ParseUint_error (s : gostring) (bitSize n : Z) (e : error) :
  ParseUint s bitSize = (n, Some e) ->
  e = NumError "ParseUint" s ErrSyntax \/
  e = NumError "ParseUint" s ErrRange.
Proof.
  unfold ParseUint. destruct s as [| b s].
  - intros H; inversion H; left; reflexivity.
  - apply parseDigits_error.
Qed.

(** [Parse] past its slices: what is left is the conversion of the
    segments. *)
Lemma Parse_fieldStrings (a : arch) (s : gostring) (ss : list gostring) :
  IsValid s = true -> fieldStrings s = Returns ss ->
  exists pre,
    Parse a s =
    (s0 <- index ss 0 ;;
     match ParseUint s0 (IntSize a) with
     | (_, Some err) =>
         Returns (zeroVersion, Some (Errorf "strconv.ParseUint: " err))
     | (major, None) =>
         s1 <- index ss 1 ;;
         match ParseUint s1 (IntSize a) with
         | (_, Some err) =>
             Returns (zeroVersion, Some (Errorf "strconv.ParseUint: " err))
         | (minor, None) =>
             s2 <- index ss 2 ;;
             match ParseUint s2 (IntSize a) with
             | (_, Some err) =>
                 Returns (zeroVersion,
                          Some (Errorf "strconv.ParseUint: " err))
             | (patch, None) =>
                 match New (wrap a major) (wrap a minor) (wrap a patch)
                           [PreRelease pre] with
                 | (_, Some err) =>
                     Returns (zeroVersion, Some (Errorf "New: " err))
                 | (v, None) => Returns (v, None)
                 end
             end
         end
     end).
Proof.
  intros Hvalid. unfold fieldStrings, Parse. rewrite Hvalid. cbn [negb].
  change (str "-") with ["-"%char].
  destruct (Z.ltb_spec (Index s ["-"%char]) 0) as [Hi | Hi].
  - destruct (slice s 1 (len s)) as [fields |]; cbn [bind]; [| discriminate].
    intros H. injection H as <-. exists []. reflexivity.
  - destruct (slice s 1 (Index s ["-"%char])) as [fields |]; cbn [bind];
      [| discriminate].
    intros H. injection H as <-.
    assert (Hlt : Index s ["-"%char] < len s)
      by (destruct (Index_single_lt "-"%char s) as [? | [_ ?]]; lia).
    destruct (slice_returns s (Index s ["-"%char] + 1) (len s))
      as [pre Hpre]; [lia | lia |].
    rewrite Hpre. cbn [bind fst snd]. exists pre. reflexivity.
Qed.

End NumericStage.

(** ** The strings of the grammar *)

Section GrammarStrings.

Lemma within_Matches (lo hi : rune) (r : regex) (l : list rune) :
  Matches r l -> within lo hi r = true ->
  Forall (fun c => lo <= c <= hi) l.
Proof.
  induction 1 as [| c | rs c Hc | c Hc | r1 r2 u v _ IH1 _ IH2
                  | r1 r2 u _ IH | r1 r2 u _ IH | r
                  | r u v _ IH1 _ IH2]; cbn [within]; intros W.
  - constructor.
  - constructor; [apply between_spec; assumption | constructor].
  - constructor; [| constructor].
    unfold inClass in Hc. apply existsb_exists in Hc as (p & Hp & Hb).
    rewrite forallb_forall in W. specialize (W p Hp).
    apply andb_true_iff in W as [W1 W2].
    apply between_spec in Hb. apply Z.leb_le in W1, W2. lia.
  - discriminate.
  - apply andb_true_iff in W as [W1 W2]. apply Forall_app; split; auto.
  - apply andb_true_iff in W as [W1 W2]. auto.
  - apply andb_true_iff in W as [W1 W2]. auto.
  - constructor.
  - apply Forall_app; split; auto.
Qed.

Lemma Matches_number_digits (b : gostring) :
  Matches number (map code b) -> Forall isDigitByte b.
Proof.
  intros H. apply (within_Matches 48 57) in H; [| reflexivity].
  apply Forall_map in H. exact H.
Qed.

(** A string of the grammar, byte by byte. *)
Lemma specGrammar_bytes (s : gostring) :
  MatchString specGrammar s = true ->
  exists b1 b2 b3 tail,
    s = ("v"%char :: b1 ++ "."%char :: b2 ++ "."%char :: b3) ++ tail /\
    Forall isDigitByte b1 /\ Forall isDigitByte b2 /\ Forall isDigitByte b3 /\
    (tail = [] \/ exists pre, tail = "-"%char :: pre).
Proof.
  unfold MatchString. rewrite matchb_Matches. intros H.
  assert (HA : runes s = map code s).
  { apply runes_ascii_inv.
    apply (within_Matches 0 127) in H; [| reflexivity].
    eapply Forall_impl; [| exact H]. cbv beta. intros; lia. }
  rewrite HA in H. clear HA.
  unfold specGrammar, Twice, Opt, dot in H.
  apply Matches_Cat_inv in H as (u0 & l1 & E0 & Hv & H).
  apply Matches_Lit_inv in Hv. subst u0.
  apply Matches_Cat_inv in H as (n1 & l2 & -> & Hn1 & H).
  apply Matches_Cat_inv in H as (tw & tl & -> & Htw & Htl).
  apply Matches_Cat_inv in Htw as (x & y & -> & Hx & Hy).
  apply Matches_Cat_inv in Hx as (d1 & n2 & -> & Hd1 & Hn2).
  apply Matches_Cat_inv in Hy as (d2 & n3 & -> & Hd2 & Hn3).
  apply Matches_Lit_inv in Hd1, Hd2. subst d1 d2.
  cbn [app] in E0.
  apply map_eq_cons in E0 as (cv & s1 & -> & Ecv & E1).
  apply map_eq_app in E1 as (b1 & s2 & -> & <- & E2).
  apply map_eq_cons in E2 as (cd1 & s3 & -> & Ecd1 & E3).
  apply map_eq_app in E3 as (x & tail & -> & Ex & <-).
  apply map_eq_app in Ex as (b2 & y & -> & <- & Ey).
  apply map_eq_cons in Ey as (cd2 & b3 & -> & Ecd2 & <-).
  change (chr "v") with (code "v"%char) in Ecv.
  change (chr ".") with (code "."%char) in Ecd1, Ecd2.
  apply code_inj in Ecv, Ecd1, Ecd2. subst cv cd1 cd2.
  exists b1, b2, b3, tail.
  split; [cbn [app]; rewrite <- !app_assoc; cbn [app];
          rewrite <- !app_assoc; reflexivity |].
  split; [apply Matches_number_digits; assumption |].
  split; [apply Matches_number_digits; assumption |].
  split; [apply Matches_number_digits; assumption |].
  apply Matches_Alt_inv in Htl as [Htl | Htl].
  - right. apply Matches_Cat_inv in Htl as (d & rest & Etl & Hd & _).
    apply Matches_Lit_inv in Hd. subst d. cbn [app] in Etl.
    apply map_eq_cons in Etl as (cd & pre & -> & Ecd & _).
    change (chr "-") with (code "-"%char) in Ecd.
    apply code_inj in Ecd. subst cd. exists pre. reflexivity.
  - left. apply Matches_Eps_inv in Htl.
    destruct tail; [reflexivity | discriminate].
Qed.

Lemma fieldStrings_bytes (b1 b2 b3 tail : gostring) :
  Forall isDigitByte b1 -> Forall isDigitByte b2 -> Forall isDigitByte b3 ->
  tail = [] \/ (exists pre, tail = "-"%char :: pre) ->
  fieldStrings (("v"%char :: b1 ++ "."%char :: b2 ++ "."%char :: b3) ++ tail)
  = Returns [b1; b2; b3].
Proof.
  intros H1 H2 H3 Htail. unfold fieldStrings.
  change (str "-") with ["-"%char]. change (str ".") with ["."%char].
  assert (Hnd : Forall (fun x => x <> "-"%char)
                  ("v"%char :: b1 ++ "."%char :: b2 ++ "."%char :: b3)).
  { constructor; [discriminate |].
    repeat (apply Forall_app; split;
            [eapply Forall_impl; [apply digit_not_dash | assumption] |];
            constructor; [discriminate |]).
    eapply Forall_impl; [apply digit_not_dash | assumption]. }
  assert (Hsplit : Split (b1 ++ "."%char :: b2 ++ "."%char :: b3) ["."%char]
                   = [b1; b2; b3]).
  { apply Split_three;
      (eapply Forall_impl; [apply digit_not_dot | assumption]). }
  destruct Htail as [-> | [pre ->]].
  - rewrite app_nil_r. rewrite Index_single_absent by assumption.
    cbn [Z.ltb Z.compare]. rewrite slice_tail. cbn [bind].
    rewrite Hsplit. reflexivity.
  - rewrite Index_single_first by assumption.
    pose proof (len_nonneg ("v"%char :: b1 ++ "."%char :: b2 ++ "."%char :: b3)).
    destruct (Z.ltb_spec
                (len ("v"%char :: b1 ++ "."%char :: b2 ++ "."%char :: b3)) 0);
      [lia |].
    rewrite slice_fields. cbn [bind]. rewrite Hsplit. reflexivity.
Qed.

(** On a string of the grammar [Parse] returns: its three accesses are in
    range. *)
Theorem Parse_returns_on_grammar (a : arch) (s : gostring) :
  MatchString specGrammar s = true ->
  exists ss, fieldStrings s = Returns ss /\ List.length ss = 3%nat /\
  exists r, Parse a s = Returns r.
Proof.
  intros H. pose proof (IsValid_complete s H) as Hvalid.
  destruct (specGrammar_bytes s H) as (b1 & b2 & b3 & tail & -> & H1 & H2 & H3 & Ht).
  pose proof (fieldStrings_bytes b1 b2 b3 tail H1 H2 H3 Ht) as Hf.
  exists [b1; b2; b3]. split; [exact Hf |]. split; [reflexivity |].
  destruct (Parse_fieldStrings a _ _ Hvalid Hf) as [pre ->].
  rewrite index_0. cbn [bind].
  destruct (ParseUint b1 (IntSize a)) as [n1 [e1 |]]; [eexists; reflexivity |].
  rewrite index_1. cbn [bind].
  destruct (ParseUint b2 (IntSize a)) as [n2 [e2 |]]; [eexists; reflexivity |].
  rewrite index_2. cbn [bind].
  destruct (ParseUint b3 (IntSize a)) as [n3 [e3 |]]; [eexists; reflexivity |].
  destruct (New _ _ _ _) as [v [e |]]; eexists; reflexivity.
Qed.

End GrammarStrings.

(** * The claims *)

(** C1.  [IsValid] is not the grammar of the specification: the dots of
    [versionPattern] are not escaped, so any character but a newline
    separates the fields and the pre-release segments.  The string
    "v1.0.0-abc_def", which the grammar rejects for its segment that is not
    alphanumeric, is valid for [IsValid], and so is "v1x2x3". *)
Theorem IsValid_accepts_any_separator :
  MatchString specGrammar (str "v1.0.0-abc_def") = false /\
  IsValid (str "v1.0.0-abc_def") = true /\
  MatchString specGrammar (str "v1x2x3") = false /\
  IsValid (str "v1x2x3") = true.
Proof. repeat split; reflexivity. Qed.

(** C2.  [Parse] panics on a string that [IsValid] accepts: "v12345" matches
    the pattern (the digits 2 and 4 are taken for separators), its fields
    hold no dot, [strings.Split] returns one segment, that segment converts,
    and the access to the second segment is out of range. *)
Theorem Parse_panics_on_valid_string (a : arch) :
  IsValid (str "v12345") = true /\
  Split (str "12345") (str ".") = [str "12345"] /\
  ParseUint (str "12345") (IntSize a) = (12345, None) /\
  Parse a (str "v12345") = Panics.
Proof. destruct a; repeat split; reflexivity. Qed.

(** [New] with no option, on numbers that are not negative. *)
Lemma New_plain (M m p : Z) :
  0 <= M -> 0 <= m -> 0 <= p -> New M m p [] = (mkVersion M m p [], None).
Proof.
  intros HM Hm Hp. unfold New. cbn [applyOptions].
  rewrite IsValid_plain by assumption. reflexivity.
Qed.

(** C3.  Round trip: when [New] succeeds and returns [v], [Parse] of the
    rendering of [v] succeeds and returns a version that compares equal to
    [v] and has the same major, minor, patch and pre-release.  The numbers
    are values of [uint], and so are those an option leaves. *)
Theorem Parse_String_round_trip (a : arch) (M m p : Z) (opts : list Option)
  (v : Version) :
  isUint a M -> isUint a m -> isUint a p ->
  (forall o, In o opts -> forall x, wfVersion a x -> wfVersion a (o x)) ->
  New M m p opts = (v, None) ->
  exists w,
    Parse a (Version_String v) = Returns (w, None) /\
    Version_Compare v w = 0 /\
    Version_Major w = Version_Major v /\
    Version_Minor w = Version_Minor v /\
    Version_Patch w = Version_Patch v /\
    Version_PreRelease w = Version_PreRelease v.
Proof.
  intros HM Hm Hp Hopts Hnew.
  apply New_success in Hnew as [Hv Hvalid].
  assert (Hwf : wfVersion a v).
  { rewrite Hv. apply applyOptions_wf; [exact Hopts |].
    repeat split; cbn [major minor patch]; first [apply HM | apply Hm | apply Hp]. }
  exists v. split; [apply Parse_String; assumption |].
  split; [apply Compare_eq_iff; repeat split |].
  repeat split.
Qed.

Lemma Parse_String_round_trip_witness :
  exists w,
    Parse Bits64 (str "v1.2.3-Abc.1.2.3") = Returns (w, None) /\
    Version_Compare (mkVersion 1 2 3 (str "Abc.1.2.3")) w = 0 /\
    Version_Major w = 1 /\ Version_Minor w = 2 /\ Version_Patch w = 3 /\
    Version_PreRelease w = str "Abc.1.2.3".
Proof.
  apply (Parse_String_round_trip Bits64 1 2 3 [PreRelease (str "Abc.1.2.3")]
           (mkVersion 1 2 3 (str "Abc.1.2.3"))).
  - unfold isUint; simpl; lia.
  - unfold isUint; simpl; lia.
  - unfold isUint; simpl; lia.
  - intros o [<- | []] x Hx. exact Hx.
  - reflexivity.
Defined.

(** C4.  [Compare] returns -1, 0 or 1 by strict precedence of major, minor,
    patch and then the pre-release strings in the order of their bytes; it
    returns 0 exactly when the four fields are equal; it is antisymmetric,
    transitive and reflexive. *)
Theorem Compare_full_order :
  (forall v w, Version_Compare v w = -1 \/ Version_Compare v w = 0 \/
               Version_Compare v w = 1) /\
  (forall v w, Version_Compare v w = -1 <-> precedes v w) /\
  (forall v w, Version_Compare v w = 1 <-> precedes w v) /\
  (forall v w, Version_Compare v w = 0 <-> sameFields v w) /\
  (forall v w, Version_Compare v w = 0 <-> v = w) /\
  (forall v w, Version_Compare v w = - Version_Compare w v) /\
  (forall u v w, Version_Compare u v = -1 -> Version_Compare v w = -1 ->
                 Version_Compare u w = -1) /\
  (forall u v w, Version_Compare u v <= 0 -> Version_Compare v w <= 0 ->
                 Version_Compare u w <= 0) /\
  (forall v, Version_Compare v v = 0).
Proof.
  assert (Hgt : forall v w, Version_Compare v w = 1 <-> precedes w v).
  { intros v w. rewrite <- Compare_lt_iff, (Compare_antisym v w). lia. }
  assert (Heq : forall v w, Version_Compare v w = 0 <-> v = w).
  { intros v w. rewrite Compare_eq_iff. split.
    - destruct v, w. unfold sameFields. cbn. intros (-> & -> & -> & ->).
      reflexivity.
    - intros ->. repeat split. }
  assert (Hlt : forall u v w, Version_Compare u v = -1 ->
                  Version_Compare v w = -1 -> Version_Compare u w = -1).
  { intros u v w. rewrite !Compare_lt_iff. apply precedes_trans. }
  assert (Hle : forall u v w, Version_Compare u v <= 0 ->
                  Version_Compare v w <= 0 -> Version_Compare u w <= 0).
  { intros u v w Huv Hvw.
    destruct (Compare_range u v) as [E1 | [E1 | E1]]; [| | lia];
      destruct (Compare_range v w) as [E2 | [E2 | E2]]; try lia.
    - rewrite (Hlt u v w E1 E2). lia.
    - apply Heq in E2. subst w. lia.
    - apply Heq in E1. subst v. lia.
    - apply Heq in E1. subst v. lia. }
  assert (Hrefl : forall v, Version_Compare v v = 0)
    by (intros v; apply Heq; reflexivity).
  exact (conj Compare_range (conj Compare_lt_iff (conj Hgt
           (conj Compare_eq_iff (conj Heq (conj Compare_antisym
             (conj Hlt (conj Hle Hrefl)))))))).
Qed.

(** C5, as the claim states it: [Bump] of the major field returns the
    result of [New].  It does not when [New] fails: [New] returns the
    sentinel [ErrInvalidVersion], [Bump] an error that wraps it. *)
Lemma Bump_is_not_New :
  ~ (forall a v opts,
       Version_Bump a v Major opts = New (wrap a (major v + 1)) 0 0 opts).
Proof.
  intros H.
  specialize (H Bits64 (mkVersion 1 2 3 []) [PreRelease (str "_")]).
  vm_compute in H. discriminate H.
Qed.

Lemma Bump_fields (a : arch) (v : Version) (opts : list Option) :
  Version_Bump a v Major opts
  = surfaceNew (New (wrap a (major v + 1)) 0 0 opts) /\
  Version_Bump a v Minor opts
  = surfaceNew (New (major v) (wrap a (minor v + 1)) 0 opts) /\
  Version_Bump a v Patch opts
  = surfaceNew (New (major v) (minor v) (wrap a (patch v + 1)) opts).
Proof.
  unfold Version_Bump, surfaceNew.
  change (Major =? Major) with true. change (Minor =? Major) with false.
  change (Minor =? Minor) with true. change (Patch =? Major) with false.
  change (Patch =? Minor) with false. change (Patch =? Patch) with true.
  cbv iota.
  repeat split;
    match goal with
    | |- context [New ?x ?y ?z opts] =>
        destruct (New x y z opts) as [v1 [err |]]; reflexivity
    end.
Qed.

(** C5, amended.  [Bump] of [Major], [Minor] or [Patch] calls [New] on the
    numbers with the field incremented (modulo the width of [uint]) and the
    lower fields zero, and on the options; it returns the version and a nil
    error when [New] succeeds, and the zero-value version with the error of
    [New] wrapped under "New: " when it fails, an error that is not
    [ErrInvalidVersion] but that [errors.Is] matches with it.  For any other
    field, zero included, it returns the zero-value version and
    [ErrInvalidField]. *)
Theorem Bump_surfaces_New (a : arch) (v : Version) (opts : list Option) :
  Version_Bump a v Major opts
  = surfaceNew (New (wrap a (major v + 1)) 0 0 opts) /\
  Version_Bump a v Minor opts
  = surfaceNew (New (major v) (wrap a (minor v + 1)) 0 opts) /\
  Version_Bump a v Patch opts
  = surfaceNew (New (major v) (minor v) (wrap a (patch v + 1)) opts) /\
  (forall M m p,
     New M m p opts = (zeroVersion, Some ErrInvalidVersion) \/
     exists v1, New M m p opts = (v1, None)) /\
  surfaceNew (zeroVersion, Some ErrInvalidVersion)
  = (zeroVersion, Some (wrapError "New: " ErrInvalidVersion)) /\
  errors_Is (wrapError "New: " ErrInvalidVersion) ErrInvalidVersion = true /\
  (forall f, f <> Major -> f <> Minor -> f <> Patch ->
             Version_Bump a v f opts = (zeroVersion, Some ErrInvalidField)) /\
  Version_Bump a v 0 opts = (zeroVersion, Some ErrInvalidField).
Proof.
  destruct (Bump_fields a v opts) as (EM & Em & Ep).
  split; [exact EM |]. split; [exact Em |]. split; [exact Ep |].
  split; [| split; [| split; [| split]]].
  - intros M m p. unfold New.
    destruct (IsValid _); cbn [negb]; [right; eexists; reflexivity | left].
    reflexivity.
  - reflexivity.
  - reflexivity.
  - intros f HM Hm Hp. unfold Version_Bump.
    destruct (Z.eqb_spec f Major); [contradiction |].
    destruct (Z.eqb_spec f Minor); [contradiction |].
    destruct (Z.eqb_spec f Patch); [contradiction |]. reflexivity.
  - reflexivity.
Qed.

(** C6.  [New] applies its options in order to the candidate built from the
    three numbers, renders the result and validates the rendering with
    [IsValid]: it returns the zero-value version and [ErrInvalidVersion]
    exactly when the rendering is not valid, and the candidate and a nil
    error otherwise. *)
Theorem New_validates_rendering (M m p : Z) (opts : list Option) :
  let candidate :=
    fold_left (fun v (o : Option) => o v) opts (mkVersion M m p []) in
  (New M m p opts = (zeroVersion, Some ErrInvalidVersion) <->
   IsValid (Version_String candidate) = false) /\
  (New M m p opts = (candidate, None) <->
   IsValid (Version_String candidate) = true) /\
  (forall v err, New M m p opts = (v, Some err) ->
                 v = zeroVersion /\ err = ErrInvalidVersion).
Proof.
  assert (Hfold : forall v0,
             applyOptions opts v0 = fold_left (fun v (o : Option) => o v) opts v0).
  { induction opts as [| o opts' IH]; intros v0; [reflexivity |].
    cbn [applyOptions fold_left]. apply IH. }
  cbv zeta. unfold New. rewrite Hfold.
  destruct (IsValid _) eqn:E; cbn [negb]; repeat split;
    intros; try discriminate; try reflexivity; try congruence.
Qed.

(** C7.  [New] with no option succeeds on every three values of [uint]:
    the rendering of the numbers is valid whatever their magnitude. *)
Theorem New_plain_succeeds (a : arch) (M m p : Z) :
  isUint a M -> isUint a m -> isUint a p ->
  IsValid (Version_String (mkVersion M m p [])) = true /\
  New M m p [] = (mkVersion M m p [], None).
Proof.
  intros [HM _] [Hm _] [Hp _].
  split; [apply IsValid_plain | apply New_plain]; assumption.
Qed.

Lemma New_plain_succeeds_witness :
  IsValid (Version_String (mkVersion 18446744073709551615 0 4294967296 []))
  = true /\
  New 18446744073709551615 0 4294967296 []
  = (mkVersion 18446744073709551615 0 4294967296 [], None).
Proof.
  apply (New_plain_succeeds Bits64 18446744073709551615 0 4294967296);
    unfold isUint; simpl; lia.
Defined.

(** C8, as the claim states it: the error tells which of the three
    conversions failed.  It does not: the three wrap the error of
    [strconv.ParseUint] under the same prefix, and the error of a major
    that overflows is the error of a minor that overflows with the same
    digits.  No function of the error returns the stage. *)
Lemma Parse_error_hides_field :
  ~ (exists stageOf : error -> nat,
       forall s k err,
         IsValid s = true -> failingStage Bits64 s = Some k ->
         Parse Bits64 s = Returns (zeroVersion, Some err) ->
         stageOf err = k).
Proof.
  intros [stageOf H].
  pose (err := wrapError "strconv.ParseUint: "
                 (NumError "ParseUint" (str "99999999999999999999") ErrRange)).
  assert (H0 : stageOf err = 0%nat).
  { apply (H (str "v99999999999999999999.0.0")); vm_compute; reflexivity. }
  assert (H1 : stageOf err = 1%nat).
  { apply (H (str "v0.99999999999999999999.0")); vm_compute; reflexivity. }
  rewrite H0 in H1. discriminate H1.
Qed.

(** C8, amended.  When a string passes [IsValid] and the conversion of one
    of its segments fails, the segments before it having converted, [Parse]
    returns the zero-value version and an error that wraps the error of
    [strconv.ParseUint] under the prefix "strconv.ParseUint: ", the same
    for the three fields: the wrapped error names the segment and is a
    syntax or a range error, and the error returned is not
    [ErrInvalidVersion], nor does [errors.Is] match it with it. *)
Theorem Parse_wraps_conversion_failure (a : arch) (s : gostring)
  (ss : list gostring) (k : nat) (e : error) :
  IsValid s = true -> fieldStrings s = Returns ss ->
  conversionFailure a ss = Some (k, e) ->
  Parse a s = Returns (zeroVersion, Some (wrapError "strconv.ParseUint: " e)) /\
  Unwrap (wrapError "strconv.ParseUint: " e) = Some e /\
  (exists num, nth_error ss k = Some num /\
               (e = NumError "ParseUint" num ErrSyntax \/
                e = NumError "ParseUint" num ErrRange)) /\
  wrapError "strconv.ParseUint: " e <> ErrInvalidVersion /\
  errors_Is (wrapError "strconv.ParseUint: " e) ErrInvalidVersion = false.
Proof.
  intros Hvalid Hfields Hfail.
  destruct (Parse_fieldStrings a s ss Hvalid Hfields) as [pre ->].
  assert (Hshape : exists num, nth_error ss k = Some num /\
                     (e = NumError "ParseUint" num ErrSyntax \/
                      e = NumError "ParseUint" num ErrRange) /\
                     (s0 <- index ss 0 ;;
       match ParseUint s0 (IntSize a) with
       | (_, Some err) =>
           Returns (zeroVersion, Some (Errorf "strconv.ParseUint: " err))
       | (major, None) =>
           s1 <- index ss 1 ;;
           match ParseUint s1 (IntSize a) with
           | (_, Some err) =>
               Returns (zeroVersion, Some (Errorf "strconv.ParseUint: " err))
           | (minor, None) =>
               s2 <- index ss 2 ;;
               match ParseUint s2 (IntSize a) with
               | (_, Some err) =>
                   Returns (zeroVersion,
                            Some (Errorf "strconv.ParseUint: " err))
               | (patch, None) =>
                   match New (wrap a major) (wrap a minor) (wrap a patch)
                             [PreRelease pre] with
                   | (_, Some err) =>
                       Returns (zeroVersion, Some (Errorf "New: " err))
                   | (v, None) => Returns (v, None)
                   end
               end
           end
       end) = Returns (zeroVersion, Some (wrapError "strconv.ParseUint: " e))).
  { unfold conversionFailure in Hfail.
    destruct ss as [| s0 ss]; [discriminate |].
    rewrite index_0. cbn [bind].
    destruct (ParseUint s0 (IntSize a)) as [n0 [e0 |]] eqn:E0.
    { injection Hfail as <- <-. exists s0.
      split; [reflexivity |]. split; [eapply ParseUint_error; eassumption |].
      reflexivity. }
    destruct ss as [| s1 ss]; [discriminate |].
    rewrite index_1. cbn [bind].
    destruct (ParseUint s1 (IntSize a)) as [n1 [e1 |]] eqn:E1.
    { injection Hfail as <- <-. exists s1.
      split; [reflexivity |]. split; [eapply ParseUint_error; eassumption |].
      reflexivity. }
    destruct ss as [| s2 ss]; [discriminate |].
    rewrite index_2. cbn [bind].
    destruct (ParseUint s2 (IntSize a)) as [n2 [e2 |]] eqn:E2;
      [| discriminate].
    injection Hfail as <- <-. exists s2.
    split; [reflexivity |]. split; [eapply ParseUint_error; eassumption |].
    reflexivity. }
  destruct Hshape as (num & Hnth & Hkind & ->).
  split; [reflexivity |]. split; [reflexivity |].
  split; [exists num; split; assumption |].
  split; [discriminate |].
  destruct Hkind as [-> | ->]; reflexivity.
Qed.

Lemma Parse_wraps_conversion_failure_witness :
  Parse Bits64 (str "v0.99999999999999999999.0")
  = Returns (zeroVersion,
             Some (wrapError "strconv.ParseUint: "
                     (NumError "ParseUint" (str "99999999999999999999")
                               ErrRange))).
Proof.
  apply (Parse_wraps_conversion_failure Bits64
           (str "v0.99999999999999999999.0")
           [str "0"; str "99999999999999999999"; str "0"] 1%nat
           (NumError "ParseUint" (str "99999999999999999999") ErrRange));
    vm_compute; reflexivity.
Defined.

(** C9.  With equal major, minor and patch, a version with no pre-release
    compares below a version with one: the empty string is the least. *)
Theorem Compare_release_before_prerelease (v w : Version) :
  major v = major w -> minor v = minor w -> patch v = patch w ->
  preRelease v = [] -> preRelease w <> [] ->
  Version_Compare v w = -1 /\ Version_Compare w v = 1.
Proof.
  intros HM Hm Hp Hv Hw.
  assert (H : Version_Compare v w = -1).
  { apply Compare_lt_iff. unfold precedes.
    right; split; [exact HM |]. right; split; [exact Hm |].
    right; split; [exact Hp |]. rewrite Hv. apply strlt_nil. exact Hw. }
  split; [exact H |]. rewrite (Compare_antisym w v), H. reflexivity.
Qed.

Lemma Compare_release_before_prerelease_witness :
  Version_Compare (mkVersion 1 0 0 []) (mkVersion 1 0 0 (str "alpha")) = -1 /\
  Version_Compare (mkVersion 1 0 0 (str "alpha")) (mkVersion 1 0 0 []) = 1.
Proof.
  apply (Compare_release_before_prerelease
           (mkVersion 1 0 0 []) (mkVersion 1 0 0 (str "alpha")));
    try reflexivity.
  discriminate.
Defined.

(** C10.  [Bump] wraps: with no option, on a version whose major is the
    greatest [uint], [Bump] of [Major] returns v0.0.0 and a nil error; at
    the greatest minor, [Bump] of [Minor] returns the major with minor and
    patch zero; at the greatest patch, [Bump] of [Patch] returns major and
    minor with patch zero. *)
Theorem Bump_wraps_to_zero (a : arch) (v : Version) :
  wfVersion a v ->
  (major v = 2 ^ IntSize a - 1 ->
   Version_Bump a v Major [] = (mkVersion 0 0 0 [], None) /\
   Version_String (mkVersion 0 0 0 []) = str "v0.0.0") /\
  (minor v = 2 ^ IntSize a - 1 ->
   Version_Bump a v Minor [] = (mkVersion (major v) 0 0 [], None)) /\
  (patch v = 2 ^ IntSize a - 1 ->
   Version_Bump a v Patch [] = (mkVersion (major v) (minor v) 0 [], None)).
Proof.
  intros ([HM _] & [Hm _] & [Hp _]).
  assert (Hwrap : wrap a (2 ^ IntSize a - 1 + 1) = 0).
  { unfold wrap. replace (2 ^ IntSize a - 1 + 1) with (2 ^ IntSize a) by lia.
    apply Z.mod_same. destruct a; simpl; lia. }
  destruct (Bump_fields a v []) as (EM & Em & Ep).
  split; [| split].
  - intros H. rewrite EM, H, Hwrap, New_plain by lia. split; reflexivity.
  - intros H. rewrite Em, H, Hwrap, New_plain by lia. reflexivity.
  - intros H. rewrite Ep, H, Hwrap, New_plain by lia. reflexivity.
Qed.

Lemma Bump_wraps_to_zero_witness :
  Version_Bump Bits64
    (mkVersion 18446744073709551615 18446744073709551615
               18446744073709551615 []) Major []
  = (mkVersion 0 0 0 [], None) /\
  Version_Bump Bits64
    (mkVersion 18446744073709551615 18446744073709551615
               18446744073709551615 []) Minor []
  = (mkVersion 18446744073709551615 0 0 [], None) /\
  Version_Bump Bits64
    (mkVersion 18446744073709551615 18446744073709551615
               18446744073709551615 []) Patch []
  = (mkVersion 18446744073709551615 18446744073709551615 0 [], None).
Proof.
  assert (Hwf : wfVersion Bits64
                  (mkVersion 18446744073709551615 18446744073709551615
                             18446744073709551615 []))
    by (unfold wfVersion, isUint; simpl; lia).
  destruct (Bump_wraps_to_zero Bits64 _ Hwf) as (HM & Hm & Hp).
  split; [apply HM; reflexivity |].
  split; [apply Hm; reflexivity | apply Hp; reflexivity].
Defined.

(** * Further properties of the package *)

(** ** The outcomes of Parse *)

Section ParseOutcomes.

Lemma wrap_isUint (a : arch) (n : Z) : isUint a (wrap a n).
Proof.
unfold isUint, wrap. apply Z.mod_pos_bound. destruct a; simpl; lia.
Qed.

Lemma New_PreRelease_success (M m p : Z) (pre : gostring) (v : Version) :
  New M m p [PreRelease pre] = (v, None) ->
  v = mkVersion M m p pre /\ IsValid (Version_String v) = true.
Proof.
intros H. apply New_success in H as [-> H]. split; [reflexivity | exact H].
Qed.

Lemma New_failure (M m p : Z) (opts : list Option) (v : Version) (e : error) :
  New M m p opts = (v, Some e) -> v = zeroVersion /\ e = ErrInvalidVersion.
Proof.
unfold New. destruct (IsValid _); cbn [negb]; intros H; inversion H.
split; reflexivity.
Qed.

(** A string that [IsValid] accepts starts with the byte v. *)
Lemma IsValid_head (s : gostring) :
  IsValid s = true -> exists t, s = "v"%char :: t.
Proof.
unfold IsValid, MatchString. rewrite matchb_Matches. unfold versionPattern.
intros H. apply Matches_Cat_inv in H as (u & l & E & Hv & _).
apply Matches_Lit_inv in Hv. subst u. cbn [app] in E.
destruct s as [| c t]; [discriminate |].
destruct (runes_head c t) as (r & rs & Er & Hr).
rewrite Er in E. injection E as -> _.
destruct Hr as [Hc _]; [cbn; lia |].
change (chr "v") with (code "v"%char) in Hc. apply code_inj in Hc.
exists t. rewrite <- Hc. reflexivity.
Qed.

(** The slices of [Parse] are in range on a string that starts with v: the
    segments are there, and there is one at least. *)
Lemma fieldStrings_returns (t : gostring) :
  exists ss, fieldStrings ("v"%char :: t) = Returns ss /\ ss <> [].
Proof.
unfold fieldStrings. change (str "-") with ["-"%char].
assert (Hne : forall f, Split f (str ".") <> []).
{ intros f. unfold Split. destruct (List.length f); cbn [genSplit];
    [discriminate |]. destruct (_ <? 0); discriminate. }
destruct (Z.ltb_spec (Index ("v"%char :: t) ["-"%char]) 0) as [Hi | Hi].
- rewrite slice_tail. cbn [bind]. eexists. split; [reflexivity | apply Hne].
- destruct (slice_returns ("v"%char :: t) 1 (Index ("v"%char :: t) ["-"%char]))
    as [f Hf].
  + split; [lia |]. revert Hi. cbn [Index]. rewrite HasPrefix_single.
    change (Ascii.eqb "v" "-") with false. cbv iota.
    destruct (Z.ltb_spec (Index t ["-"%char]) 0); lia.
  + destruct (Index_single_lt "-"%char ("v"%char :: t)) as [? | [_ ?]]; lia.
  + rewrite Hf. cbn [bind]. eexists. split; [reflexivity | apply Hne].
Qed.

(** What [Parse] does on a valid string, by the segments and the first
    conversion that fails. *)
Lemma Parse_by_segments (a : arch) (s : gostring) (ss : list gostring) :
  IsValid s = true -> fieldStrings s = Returns ss ->
  match conversionFailure a ss with
  | Some (_, e) =>
      Parse a s
      = Returns (zeroVersion, Some (wrapError "strconv.ParseUint: " e))
  | None =>
      match ss with
      | s0 :: s1 :: s2 :: _ =>
          exists pre,
            Parse a s
            = Returns
                (surfaceNew (New (wrap a (fst (ParseUint s0 (IntSize a))))
                                 (wrap a (fst (ParseUint s1 (IntSize a))))
                                 (wrap a (fst (ParseUint s2 (IntSize a))))
                                 [PreRelease pre]))
      | _ => Parse a s = Panics
      end
  end.
Proof.
intros Hvalid Hf.
destruct (Parse_fieldStrings a s ss Hvalid Hf) as [pre ->].
unfold conversionFailure, surfaceNew.
destruct ss as [| s0 ss]; [reflexivity |].
rewrite index_0. cbn [bind].
destruct (ParseUint s0 (IntSize a)) as [n0 [e0 |]]; [reflexivity |].
destruct ss as [| s1 ss]; [reflexivity |].
rewrite index_1. cbn [bind].
destruct (ParseUint s1 (IntSize a)) as [n1 [e1 |]]; [reflexivity |].
destruct ss as [| s2 ss]; [reflexivity |].
rewrite index_2. cbn [bind].
destruct (ParseUint s2 (IntSize a)) as [n2 [e2 |]]; [reflexivity |].
exists pre. cbn [fst].
destruct (New _ _ _ _) as [v [e |]]; reflexivity.
Qed.

End ParseOutcomes.

(** X1.  The method [IsValid] never panics on a version whose numbers are
    values of [uint], and it returns what the function [IsValid] returns on
    the rendering of the version: the comparison with the parsed copy adds
    nothing. *)
Theorem Version_IsValid_rendering (a : arch) (v : Version) :
  wfVersion a v ->
  Version_IsValid a v = Returns (IsValid (Version_String v)).
Proof.
intros Hwf. unfold Version_IsValid.
destruct (IsValid (Version_String v)) eqn:E.
- rewrite Parse_String by assumption. cbn [bind].
  assert (H : Version_Compare v v = 0) by (apply Compare_eq_iff; repeat split).
  rewrite H. reflexivity.
- unfold Parse. rewrite E. reflexivity.
Qed.

Lemma Version_IsValid_rendering_witness :
  Version_IsValid Bits32 (mkVersion 1 2 3 (str "rc.1")) = Returns true /\
  Version_IsValid Bits32 (mkVersion 1 2 3 (str "rc..1")) = Returns false.
Proof.
split.
- rewrite (Version_IsValid_rendering Bits32 (mkVersion 1 2 3 (str "rc.1")));
    [reflexivity | unfold wfVersion, isUint; simpl; lia].
- rewrite (Version_IsValid_rendering Bits32 (mkVersion 1 2 3 (str "rc..1")));
    [reflexivity | unfold wfVersion, isUint; simpl; lia].
Defined.

(** X2.  On a valid string the slices of [Parse] are always in range and
    the split gives one segment at least; [Parse] panics exactly when the
    split gives fewer than three segments and each of them converts. *)
Theorem Parse_panics_iff (a : arch) (s : gostring) :
  IsValid s = true ->
  exists ss,
    fieldStrings s = Returns ss /\ ss <> [] /\
    (Parse a s = Panics <->
     (List.length ss < 3)%nat /\ conversionFailure a ss = None).
Proof.
intros Hvalid.
destruct (IsValid_head s Hvalid) as [t ->].
destruct (fieldStrings_returns t) as (ss & Hf & Hne).
exists ss. split; [exact Hf |]. split; [exact Hne |].
pose proof (Parse_by_segments a _ ss Hvalid Hf) as H.
destruct (conversionFailure a ss) as [[k e] |].
- rewrite H. split; [discriminate | intros [_ E]; discriminate E].
- destruct ss as [| s0 [| s1 [| s2 ss]]]; cbn [List.length];
    try (rewrite H; split; [intros _; split; [lia | reflexivity] | reflexivity]).
  destruct H as [pre ->]. split; [discriminate | intros [L _]; lia].
Qed.

Lemma Parse_panics_iff_witness :
  exists ss,
    fieldStrings (str "v1.2-3") = Returns ss /\ ss <> [] /\
    (Parse Bits64 (str "v1.2-3") = Panics <->
     (List.length ss < 3)%nat /\ conversionFailure Bits64 ss = None).
Proof.
apply (Parse_panics_iff Bits64 (str "v1.2-3")). vm_compute. reflexivity.
Defined.

(** ** Bump without options *)

(** X3.  Below the greatest value of the field, [Bump] with no option
    succeeds: it adds one to the field, sets the lower fields to zero and
    drops the pre-release, and the version it returns compares above the
    version it was called on. *)
Theorem Bump_next (a : arch) (v : Version) :
  wfVersion a v ->
  (major v + 1 < 2 ^ IntSize a ->
   Version_Bump a v Major [] = (mkVersion (major v + 1) 0 0 [], None) /\
   Version_Compare (mkVersion (major v + 1) 0 0 []) v = 1) /\
  (minor v + 1 < 2 ^ IntSize a ->
   Version_Bump a v Minor []
   = (mkVersion (major v) (minor v + 1) 0 [], None) /\
   Version_Compare (mkVersion (major v) (minor v + 1) 0 []) v = 1) /\
  (patch v + 1 < 2 ^ IntSize a ->
   Version_Bump a v Patch []
   = (mkVersion (major v) (minor v) (patch v + 1) [], None) /\
   Version_Compare (mkVersion (major v) (minor v) (patch v + 1) []) v = 1).
Proof.
intros ([HM _] & [Hm _] & [Hp _]).
destruct (Bump_fields a v []) as (EM & Em & Ep).
assert (Hgt : forall x, precedes v x -> Version_Compare x v = 1).
{ intros x Hx. apply Compare_lt_iff in Hx.
  rewrite (Compare_antisym x v), Hx. reflexivity. }
split; [| split]; intros Hlt.
- rewrite EM, wrap_small, New_plain by (unfold isUint; lia).
  split; [reflexivity |]. apply Hgt. left. cbn [major]. lia.
- rewrite Em, wrap_small, New_plain by (unfold isUint; lia).
  split; [reflexivity |]. apply Hgt. right. cbn [major minor].
  split; [reflexivity |]. left. lia.
- rewrite Ep, wrap_small, New_plain by (unfold isUint; lia).
  split; [reflexivity |]. apply Hgt. right. cbn [major minor patch].
  split; [reflexivity |]. right. split; [reflexivity |]. left. lia.
Qed.

Lemma Bump_next_witness :
  Version_Bump Bits32 (mkVersion 1 2 3 (str "rc.1")) Minor []
  = (mkVersion 1 3 0 [], None) /\
  Version_Compare (mkVersion 1 3 0 []) (mkVersion 1 2 3 (str "rc.1")) = 1.
Proof.
assert (Hwf : wfVersion Bits32 (mkVersion 1 2 3 (str "rc.1")))
  by (unfold wfVersion, isUint; simpl; lia).
destruct (Bump_next Bits32 _ Hwf) as (_ & Hm & _).
apply Hm. simpl. lia.
Defined.

(** ** The rendering determines the version *)

Section Injective.

Lemma split_unique (c : ascii) (x : gostring) :
  forall y r r',
    Forall (fun b => b <> c) x -> Forall (fun b => b <> c) y ->
    x ++ c :: r = y ++ c :: r' -> x = y /\ r = r'.
Proof.
induction x as [| b x IH]; intros [| b' y] r r' Hx Hy E; cbn [app] in E.
- injection E as ->. split; reflexivity.
- injection E as <- _. inversion Hy; subst. congruence.
- injection E as -> _. inversion Hx; subst. congruence.
- injection E as -> E. inversion Hx; inversion Hy; subst.
  destruct (IH y r r') as [-> ->]; try assumption. split; reflexivity.
Qed.

Lemma fmtUint_inj (a : arch) (x y : Z) :
  isUint a x -> isUint a y -> fmtUint x = fmtUint y -> x = y.
Proof.
intros Hx Hy E.
pose proof (ParseUint_fmtUint a x Hx) as Px.
pose proof (ParseUint_fmtUint a y Hy) as Py.
rewrite E in Px. congruence.
Qed.

Lemma numericPart_inj (a : arch) (v w : Version) :
  wfVersion a v -> wfVersion a w -> numericPart v = numericPart w ->
  major v = major w /\ minor v = minor w /\ patch v = patch w.
Proof.
intros (HM & Hm & Hp) (HM' & Hm' & Hp'). unfold numericPart. intros E.
apply split_unique in E as [E1 E]; try (apply fmtUint_no_dot; apply HM || apply HM').
apply split_unique in E as [E2 E3]; try (apply fmtUint_no_dot; apply Hm || apply Hm').
repeat split; eapply fmtUint_inj; eassumption.
Qed.

Lemma Version_String_inj (a : arch) (v w : Version) :
  wfVersion a v -> wfVersion a w ->
  Version_String v = Version_String w -> v = w.
Proof.
intros Hv Hw E.
assert (Hdv : Forall (fun x => x <> "-"%char) ("v"%char :: numericPart v))
  by (destruct Hv as ([? _] & [? _] & [? _]);
      apply numericPart_no_dash; assumption).
assert (Hdw : Forall (fun x => x <> "-"%char) ("v"%char :: numericPart w))
  by (destruct Hw as ([? _] & [? _] & [? _]);
      apply numericPart_no_dash; assumption).
assert (Hfields : numericPart v = numericPart w /\ preRelease v = preRelease w).
{ destruct (preRelease v) as [| c pv] eqn:Ev;
    destruct (preRelease w) as [| c' pw] eqn:Ew.
  - rewrite !Version_String_plain in E by assumption.
    injection E as E. split; [exact E | reflexivity].
  - exfalso. rewrite Version_String_plain in E by assumption.
    rewrite Version_String_pre in E by congruence.
    rewrite E in Hdv. rewrite Forall_forall in Hdv.
    apply (Hdv "-"%char); [| reflexivity].
    apply in_or_app. right. left. reflexivity.
  - exfalso. rewrite (Version_String_plain w) in E by assumption.
    rewrite Version_String_pre in E by congruence.
    rewrite <- E in Hdw. rewrite Forall_forall in Hdw.
    apply (Hdw "-"%char); [| reflexivity].
    apply in_or_app. right. left. reflexivity.
  - rewrite !Version_String_pre in E by congruence. rewrite Ev, Ew in E.
    apply split_unique in E as [E1 E2]; try assumption.
    injection E1 as E1. split; assumption. }
destruct Hfields as [En Ep].
destruct (numericPart_inj a v w Hv Hw En) as (E1 & E2 & E3).
destruct v as [M m p q], w as [M' m' p' q'].
cbn [major minor patch preRelease] in *. congruence.
Qed.

End Injective.

(** X4.  Two versions holding values of [uint] render to the same string
    exactly when [Compare] returns zero on them: no two versions that
    differ share a rendering. *)
Theorem String_equal_iff_Compare_zero (a : arch) (v w : Version) :
  wfVersion a v -> wfVersion a w ->
  (Version_String v = Version_String w <-> Version_Compare v w = 0).
Proof.
intros Hv Hw. split.
- intros E. apply (Version_String_inj a) in E; try assumption.
  subst w. apply Compare_eq_iff. repeat split.
- intros E. apply Compare_eq_iff in E.
  destruct v as [M m p q], w as [M' m' p' q'].
  unfold sameFields in E. cbn [major minor patch preRelease] in E.
  destruct E as (-> & -> & -> & ->). reflexivity.
Qed.

Lemma String_equal_iff_Compare_zero_witness :
  Version_String (mkVersion 1 2 3 (str "a")) = Version_String (mkVersion 1 2 3 [])
  <-> Version_Compare (mkVersion 1 2 3 (str "a")) (mkVersion 1 2 3 []) = 0.
Proof.
apply (String_equal_iff_Compare_zero Bits64);
  unfold wfVersion, isUint; simpl; lia.
Defined.

(** ** The option PreRelease *)

Lemma last_default (l : list gostring) (x d d' : gostring) :
  last (x :: l) d = last (x :: l) d'.
Proof.
revert x. induction l as [| y l IH]; intros x; [reflexivity |].
change (last (x :: y :: l) d) with (last (y :: l) d).
change (last (x :: y :: l) d') with (last (y :: l) d'). apply IH.
Qed.

Lemma applyOptions_PreRelease (ss : list gostring) :
  forall M m p q,
    applyOptions (map PreRelease ss) (mkVersion M m p q)
    = mkVersion M m p (last ss q).
Proof.
induction ss as [| s ss IH]; intros M m p q; [reflexivity |].
cbn [map applyOptions]. unfold PreRelease at 2. cbn [major minor patch].
rewrite IH. destruct ss as [| g ss]; [reflexivity |].
f_equal. change (last (s :: g :: ss) q) with (last (g :: ss) q).
apply last_default.
Qed.

(** X5.  The last [PreRelease] option wins: [New] with several of them
    returns what it returns with the last one alone. *)
Theorem PreRelease_last_wins (M m p : Z) (ss : list gostring) (s : gostring) :
  New M m p (map PreRelease (ss ++ [s])) = New M m p [PreRelease s].
Proof.
unfold New. change [PreRelease s] with (map PreRelease [s]).
rewrite !applyOptions_PreRelease, last_last. reflexivity.
Qed.

(** ** The pattern on three runs of digits *)

Section PatternFields.

Lemma Matches_number_inv (N : list rune) :
  Matches number N -> Forall isDigitRune N /\ N <> [].
Proof.
intros H. split.
- apply (within_Matches 48 57) in H; [exact H | reflexivity].
- unfold number in H. apply Matches_Alt_inv in H as [H | H].
  + apply Matches_Lit_inv in H. subst. discriminate.
  + apply Matches_Cat_inv in H as (u & w & -> & Hu & _).
    apply Matches_Class_inv in Hu as (c & -> & _). discriminate.
Qed.

Lemma optTail_shape (T : list rune) :
  Matches (Opt (Cat (Lit (chr "-")) preReleasePattern)) T -> tailShape T.
Proof.
intros H. apply Matches_Alt_inv in H as [H | H].
- right. apply Matches_Cat_inv in H as (u & r & -> & Hu & _).
  apply Matches_Lit_inv in Hu. subst u. exists r. reflexivity.
- left. apply Matches_Eps_inv in H. exact H.
Qed.

(** A run of digits [N] at the head of [n ++ x :: R], where [n] is a run of
    digits and [x] is not a digit, is a prefix of [n]. *)
Lemma digit_prefix (N : list rune) :
  forall n x R Y,
    Forall isDigitRune n -> ~ isDigitRune x -> Forall isDigitRune N ->
    n ++ x :: R = N ++ Y ->
    exists k, n = N ++ k /\ Y = k ++ x :: R.
Proof.
induction N as [| d N IH]; intros n x R Y Hn Hx HN E.
- exists n. split; [reflexivity | symmetry; exact E].
- inversion HN as [| ? ? Hd HN']; subst.
  destruct n as [| b n]; cbn [app] in E.
  + injection E as -> _. contradiction.
  + injection E as -> E. inversion Hn; subst.
    destruct (IH n x R Y) as (k & -> & ->); try assumption.
    exists k. split; reflexivity.
Qed.

Lemma not_digit_46 : ~ isDigitRune 46.
Proof. unfold isDigitRune. lia. Qed.

Lemma not_digit_45 : ~ isDigitRune 45.
Proof. unfold isDigitRune. lia. Qed.

(** The third number and the tail cannot stop inside a run of digits that
    a dot follows. *)
Lemma third_number_stuck (k R N3 T : list rune) :
  Forall isDigitRune k -> Forall isDigitRune N3 -> tailShape T ->
  N3 ++ T = k ++ 46 :: R -> False.
Proof.
intros Hk HN HT E. symmetry in E.
apply digit_prefix in E as (k' & -> & ->);
  try assumption; try exact not_digit_46.
apply Forall_app in Hk as [_ Hk'].
destruct HT as [HT | [r HT]].
- destruct k'; discriminate HT.
- destruct k' as [| d k']; cbn [app] in HT.
  + discriminate HT.
  + injection HT as -> _. inversion Hk'; subst.
    apply not_digit_45. assumption.
Qed.

Lemma second_number_stuck (k n' R' N2 N3 T : list rune) (c2 : rune) :
  Forall isDigitRune k -> Forall isDigitRune n' ->
  Forall isDigitRune N2 -> Forall isDigitRune N3 -> tailShape T ->
  N2 ++ c2 :: N3 ++ T = k ++ 46 :: n' ++ 46 :: R' -> False.
Proof.
intros Hk Hn' HN2 HN3 HT E. symmetry in E.
apply digit_prefix in E as (k' & -> & E);
  try assumption; try exact not_digit_46.
apply Forall_app in Hk as [_ Hk'].
destruct k' as [| d k']; cbn [app] in E.
- injection E as _ E.
  apply (third_number_stuck n' R' N3 T); assumption.
- injection E as _ E. inversion Hk'; subst.
  apply (third_number_stuck k' (n' ++ 46 :: R') N3 T); assumption.
Qed.

Lemma third_number_exact (N3 : list rune) :
  forall np T t,
    Forall isDigitRune N3 -> Forall isDigitRune np ->
    tailShape T -> noDigitHead t ->
    N3 ++ T = np ++ t -> N3 = np /\ T = t.
Proof.
induction N3 as [| d N3 IH]; intros np T t HN Hnp HT Ht E.
- destruct np as [| b np]; [split; [reflexivity | exact E] |].
  exfalso. cbn [app] in E. subst T. inversion Hnp as [| ? ? Hb _]; subst.
  destruct HT as [HT | [r HT]]; [discriminate HT |].
  injection HT as E _. subst b. apply not_digit_45. exact Hb.
- inversion HN; subst. destruct np as [| b np]; cbn [app] in E.
  + exfalso. subst t. cbn in Ht. contradiction.
  + injection E as -> E. inversion Hnp; subst.
    destruct (IH np T t) as [-> ->]; try assumption. split; reflexivity.
Qed.

(** On [v], three runs of digits joined by dots and a tail that starts
    with no digit, the pattern has one reading: the runs are its numbers
    and the tail is its optional part. *)
Lemma versionPattern_fields (nM nm np t : list rune) :
  Forall isDigitRune nM -> Forall isDigitRune nm -> Forall isDigitRune np ->
  noDigitHead t ->
  Matches versionPattern (118 :: nM ++ 46 :: nm ++ 46 :: np ++ t) ->
  Matches number nM /\ Matches number nm /\ Matches number np /\
  Matches (Opt (Cat (Lit (chr "-")) preReleasePattern)) t.
Proof.
intros HM Hm Hp Ht H. unfold versionPattern, Twice in H.
apply Matches_Cat_inv in H as (u0 & l1 & E0 & Hv & H).
apply Matches_Lit_inv in Hv. subst u0. cbn [app] in E0. injection E0 as E0.
apply Matches_Cat_inv in H as (N1 & l2 & -> & HN1 & H).
apply Matches_Cat_inv in H as (tw & T & -> & Htw & HT).
apply Matches_Cat_inv in Htw as (x & y & -> & Hx & Hy).
apply Matches_Cat_inv in Hx as (d1 & N2 & -> & Hd1 & HN2).
apply Matches_Cat_inv in Hy as (d2 & N3 & -> & Hd2 & HN3).
apply Matches_Any_inv in Hd1 as (c1 & -> & _).
apply Matches_Any_inv in Hd2 as (c2 & -> & _).
cbn [app] in E0. rewrite <- !app_assoc in E0. cbn [app] in E0.
pose proof (Matches_number_inv N1 HN1) as [D1 _].
pose proof (Matches_number_inv N2 HN2) as [D2 _].
pose proof (Matches_number_inv N3 HN3) as [D3 _].
pose proof (optTail_shape T HT) as ST.
apply digit_prefix in E0 as (k & -> & E);
  try assumption; try exact not_digit_46.
apply Forall_app in HM as [_ Hk].
destruct k as [| d k]; cbn [app] in E.
2: { exfalso. injection E as _ E. inversion Hk; subst.
     apply (second_number_stuck k nm (np ++ t) N2 N3 T c2); assumption. }
injection E as _ E. rewrite app_nil_r.
symmetry in E. apply digit_prefix in E as (k & -> & E);
  try assumption; try exact not_digit_46.
apply Forall_app in Hm as [_ Hk2].
destruct k as [| d k]; cbn [app] in E.
2: { exfalso. injection E as _ E. inversion Hk2; subst.
     apply (third_number_stuck k (np ++ t) N3 T); assumption. }
injection E as _ E. rewrite app_nil_r.
apply third_number_exact in E as [-> ->]; try assumption.
repeat split; assumption.
Qed.

Lemma Matches_versionPattern_tail (nM nm np t : list rune) :
  Matches number nM -> Matches number nm -> Matches number np ->
  Matches (Opt (Cat (Lit (chr "-")) preReleasePattern)) t ->
  Matches versionPattern (118 :: nM ++ 46 :: nm ++ 46 :: np ++ t).
Proof.
intros HM Hm Hp Ht. unfold versionPattern.
apply (MCat _ _ [118] (nM ++ 46 :: nm ++ 46 :: np ++ t)); [apply MLit |].
apply MCat; [assumption |].
replace (46 :: nm ++ 46 :: np ++ t)
  with (((46 :: nm) ++ (46 :: np)) ++ t)
  by (rewrite <- app_assoc; reflexivity).
apply MCat; [| exact Ht].
unfold Twice. apply MCat.
- apply (MCat _ _ [46] nm); [apply MAny; lia | assumption].
- apply (MCat _ _ [46] np); [apply MAny; lia | assumption].
Qed.

End PatternFields.

(** ** Valid strings with three runs of digits *)

Section ThreeFields.

Lemma digits_runes (d : gostring) :
  Forall isDigitByte d -> Forall isDigitRune (map code d).
Proof. intros H. apply Forall_map. exact H. Qed.

Lemma runes_three_fields (d1 d2 d3 rest : gostring) :
  Forall isDigitByte d1 -> Forall isDigitByte d2 -> Forall isDigitByte d3 ->
  runes ("v"%char :: d1 ++ "."%char :: d2 ++ "."%char :: d3 ++ rest)
  = 118 :: map code d1 ++ 46 :: map code d2 ++ 46 :: map code d3
      ++ runes rest.
Proof.
intros H1 H2 H3.
rewrite runes_cons_ascii by (cbn; lia).
rewrite runes_app_ascii by (apply digits_ascii; assumption).
rewrite runes_cons_ascii by (cbn; lia).
rewrite runes_app_ascii by (apply digits_ascii; assumption).
rewrite runes_cons_ascii by (cbn; lia).
rewrite runes_app_ascii by (apply digits_ascii; assumption).
reflexivity.
Qed.

(** [IsValid] on [v], three runs of digits joined by dots and a rest that
    starts with no digit: the runs are numbers of the grammar and the rest
    is empty or a dash and a pre-release. *)
Lemma IsValid_three_fields (d1 d2 d3 rest : gostring) :
  Forall isDigitByte d1 -> Forall isDigitByte d2 -> Forall isDigitByte d3 ->
  noDigitHead (runes rest) ->
  (IsValid ("v"%char :: d1 ++ "."%char :: d2 ++ "."%char :: d3 ++ rest) = true
   <->
   Matches number (map code d1) /\ Matches number (map code d2) /\
   Matches number (map code d3) /\
   Matches (Opt (Cat (Lit (chr "-")) preReleasePattern)) (runes rest)).
Proof.
intros H1 H2 H3 Hr. unfold IsValid, MatchString.
rewrite matchb_Matches, runes_three_fields by assumption. split.
- apply versionPattern_fields; try (apply digits_runes; assumption).
  exact Hr.
- intros (A & B & C & D). apply Matches_versionPattern_tail; assumption.
Qed.

Lemma optTail_dash (pre : gostring) :
  Matches (Opt (Cat (Lit (chr "-")) preReleasePattern))
          (runes ("-"%char :: pre))
  <-> MatchString preReleasePattern pre = true.
Proof.
unfold MatchString. rewrite matchb_Matches.
rewrite runes_cons_ascii by (cbn; lia). split.
- intros H. apply Matches_Alt_inv in H as [H | H].
  + apply Matches_Cat_inv in H as (u & r & E & Hu & Hr).
    apply Matches_Lit_inv in Hu. subst u. injection E as <-. exact Hr.
  + apply Matches_Eps_inv in H. discriminate H.
- intros H. apply MAltL.
  apply (MCat _ _ [code "-"%char] (runes pre)); [apply MLit | exact H].
Qed.

Lemma preReleasePattern_nonempty (pre : gostring) :
  MatchString preReleasePattern pre = true -> pre <> [].
Proof. intros H ->. discriminate H. Qed.

Lemma noDigitHead_dash (pre : gostring) :
  noDigitHead (runes ("-"%char :: pre)).
Proof.
rewrite runes_cons_ascii by (cbn; lia). cbn. unfold isDigitRune. lia.
Qed.

(** The rendering of a version, with its rest. *)
Lemma Version_String_rest (v : Version) :
  Version_String v
  = "v"%char :: fmtUint (major v) ++ "."%char :: fmtUint (minor v)
      ++ "."%char :: fmtUint (patch v)
      ++ match preRelease v with
         | [] => []
         | _ => "-"%char :: preRelease v
         end.
Proof.
destruct (preRelease v) as [| c pre] eqn:E.
- rewrite Version_String_plain by assumption. unfold numericPart.
  rewrite app_nil_r. reflexivity.
- rewrite Version_String_pre by congruence. rewrite E. unfold numericPart.
  cbn [app]. rewrite <- !app_assoc. cbn [app]. rewrite <- !app_assoc.
  reflexivity.
Qed.

Lemma IsValid_String_iff (v : Version) :
  0 <= major v -> 0 <= minor v -> 0 <= patch v ->
  (IsValid (Version_String v) = true <->
   preRelease v = [] \/ MatchString preReleasePattern (preRelease v) = true).
Proof.
intros HM Hm Hp. rewrite Version_String_rest.
rewrite IsValid_three_fields; try (apply fmtUint_digits; assumption).
- split.
  + intros (_ & _ & _ & H). destruct (preRelease v) as [| c pre];
      [left; reflexivity | right]. apply optTail_dash. exact H.
  + intros H. repeat split; try (apply Matches_number_fmtUint; assumption).
    destruct (preRelease v) as [| c pre]; [apply MAltR, MEps |].
    apply optTail_dash. destruct H as [H | H]; [discriminate H | exact H].
- destruct (preRelease v); [exact I | apply noDigitHead_dash].
Qed.

End ThreeFields.

(** X6.  [New] with the option [PreRelease] succeeds exactly when the
    pre-release is empty or matches the pre-release part of the pattern,
    runs of letters and digits with one character, any but a newline,
    between two runs; it fails with [ErrInvalidVersion] otherwise. *)
Theorem New_PreRelease_iff (M m p : Z) (pre : gostring) :
  0 <= M -> 0 <= m -> 0 <= p ->
  (New M m p [PreRelease pre] = (mkVersion M m p pre, None) <->
   pre = [] \/ MatchString preReleasePattern pre = true) /\
  (New M m p [PreRelease pre] = (zeroVersion, Some ErrInvalidVersion) <->
   pre <> [] /\ MatchString preReleasePattern pre = false).
Proof.
intros HM Hm Hp.
pose proof (IsValid_String_iff (mkVersion M m p pre) HM Hm Hp) as H.
cbn [preRelease] in H. unfold New.
change (applyOptions [PreRelease pre] (mkVersion M m p []))
  with (mkVersion M m p pre).
destruct (IsValid (Version_String (mkVersion M m p pre))) eqn:E; cbn [negb].
- split.
  + split; [intros _; apply H; reflexivity | reflexivity].
  + split; [discriminate |]. intros [Hne Hf].
    destruct H as [H _]. destruct (H eq_refl) as [H1 | H1]; congruence.
- split.
  + split; [discriminate |]. intros Hc. apply H in Hc. discriminate Hc.
  + split; [| reflexivity]. intros _.
    split.
    * intros ->. destruct H as [_ H]. discriminate (H (or_introl eq_refl)).
    * destruct (MatchString preReleasePattern pre) eqn:Ep; [| reflexivity].
      destruct H as [_ H]. discriminate (H (or_intror eq_refl)).
Qed.

Lemma New_PreRelease_iff_witness :
  New 1 2 3 [PreRelease (str "rc_1")] = (mkVersion 1 2 3 (str "rc_1"), None)
  <-> str "rc_1" = [] \/ MatchString preReleasePattern (str "rc_1") = true.
Proof.
apply (New_PreRelease_iff 1 2 3 (str "rc_1")); lia.
Defined.

(** ** What a conversion that succeeds says of its segment *)

Section Conversion.

Lemma digitByte_code (c : ascii) :
  isDigitByte c -> digitByte (code c - 48) = c.
Proof.
intros H. unfold digitByte. change (chr "0") with 48.
replace (48 + (code c - 48)) with (code c) by lia.
unfold code. rewrite N2Z.id. apply ascii_N_embedding.
Qed.

Lemma parseDigits_ok (maxVal : Z) (s0 d : gostring) :
  forall acc n,
    0 <= acc <= maxVal -> maxVal <= maxUint64 ->
    parseDigits 10 (maxUint64 / 10 + 1) maxVal s0 d acc = (n, None) ->
    Forall isDigitByte d /\
    n = fold_left (fun x c => x * 10 + (code c - 48)) d acc /\
    0 <= n <= maxVal.
Proof.
induction d as [| b d IH]; intros acc n Hacc Hmax; cbn [parseDigits fold_left].
- intros HP. injection HP as <-. repeat split; try lia. constructor.
- change (chr "0") with 48. change (chr "9") with 57.
  destruct (between 48 57 (code b)) eqn:Bd.
  + apply between_spec in Bd.
    destruct (Z.geb_spec (code b - 48) 10); [discriminate |].
    destruct (Z.geb_spec acc (maxUint64 / 10 + 1)); [discriminate |].
    assert (Hc : acc * 10 <= maxUint64).
    { assert (acc <= maxUint64 / 10) by lia.
      pose proof (Z.mul_div_le maxUint64 10 ltac:(lia)). lia. }
    unfold wrap64. change (2 ^ 64) with (maxUint64 + 1).
    rewrite (Z.mod_small (acc * 10)) by lia.
    destruct (Z_lt_le_dec (acc * 10 + (code b - 48)) (maxUint64 + 1))
      as [Hs | Hl].
    * rewrite (Z.mod_small (acc * 10 + (code b - 48))) by lia.
      destruct (Z.ltb_spec (acc * 10 + (code b - 48)) (acc * 10));
        cbn [orb]; [discriminate |].
      destruct (Z.gtb_spec (acc * 10 + (code b - 48)) maxVal);
        [discriminate |].
      intros HP. apply IH in HP as (Hd & Hn & Hr); try lia.
      repeat split; try assumption; try lia.
      constructor; [exact Bd | exact Hd].
    * assert (E : (acc * 10 + (code b - 48)) mod (maxUint64 + 1)
                  = acc * 10 + (code b - 48) - (maxUint64 + 1)).
      { symmetry. apply (Z.mod_unique _ _ 1); unfold maxUint64 in *; lia. }
      rewrite E.
      destruct (Z.ltb_spec (acc * 10 + (code b - 48) - (maxUint64 + 1))
                           (acc * 10)); cbn [orb]; [discriminate |].
      assert (Hmu : 9 < maxUint64) by (unfold maxUint64; lia). lia.
  + destruct (between (chr "a") (chr "z") (lower (code b))) eqn:Bl;
      [| discriminate].
    apply between_spec in Bl. change (chr "a") with 97 in *.
    destruct (Z.geb_spec (lower (code b) - 97 + 10) 10); [discriminate | lia].
Qed.

Lemma ParseUint_ok (a : arch) (d : gostring) (n : Z) :
  ParseUint d (IntSize a) = (n, None) ->
  d <> [] /\ Forall isDigitByte d /\ n = digitsValue d /\ isUint a n.
Proof.
unfold ParseUint. destruct d as [| b d]; [discriminate |].
rewrite maxVal_IntSize. intros H.
apply parseDigits_ok in H as (Hd & Hn & Hr).
- split; [discriminate |]. split; [exact Hd |]. split; [exact Hn |].
  unfold isUint. lia.
- assert (0 < 2 ^ IntSize a) by (destruct a; simpl; lia). lia.
- apply IntSize_le_64.
Qed.

(** A run of digits that is a number of the grammar has no leading zero,
    unless it is the digit zero. *)
Lemma number_canonical (d : gostring) :
  Matches number (map code d) ->
  d = ["0"%char] \/
  exists c d', d = c :: d' /\ 49 <= code c <= 57 /\ Forall isDigitByte d'.
Proof.
unfold number. intros H. apply Matches_Alt_inv in H as [H | H].
- left. apply Matches_Lit_inv in H.
  apply map_eq_cons in H as (c & d' & -> & Hc & Hd').
  apply map_eq_nil in Hd'. subst d'.
  change (chr "0") with (code "0"%char) in Hc. apply code_inj in Hc.
  subst c. reflexivity.
- right. apply Matches_Cat_inv in H as (u & w & E & Hu & Hw).
  apply Matches_Class_inv in Hu as (c0 & -> & Hc0).
  cbn [app] in E. apply map_eq_cons in E as (c & d' & -> & Hc & Hd').
  exists c, d'. split; [reflexivity |]. split.
  + subst c0. unfold inClass in Hc0. cbn [existsb fst snd] in Hc0.
    rewrite orb_false_r in Hc0. apply between_spec in Hc0.
    change (chr "1") with 49 in Hc0. change (chr "9") with 57 in Hc0.
    exact Hc0.
  + subst w. apply (within_Matches 48 57) in Hw; [| reflexivity].
    apply Forall_map in Hw. exact Hw.
Qed.

Lemma digitsValue_snoc (l : gostring) (x : ascii) :
  digitsValue (l ++ [x]) = digitsValue l * 10 + (code x - 48).
Proof. unfold digitsValue. rewrite fold_left_app. reflexivity. Qed.

(** Rendering the value of digits that start with no zero gives the
    digits back. *)
Lemma fmtInteger_digitsValue (d : gostring) :
  Forall isDigitByte d ->
  (exists c d', d = c :: d' /\ 49 <= code c) ->
  0 < digitsValue d /\
  forall fuel buf,
    digitsValue d < 2 ^ (Z.of_nat fuel + 1) ->
    fmtInteger fuel (digitsValue d) buf = d ++ buf.
Proof.
induction d as [| x l IH] using rev_ind; intros Hd (c & d' & E & Hc).
- discriminate E.
- apply Forall_app in Hd as [Hl Hx]. inversion Hx as [| ? ? Hx' _]; subst.
  unfold isDigitByte in Hx'. rewrite digitsValue_snoc.
  destruct l as [| y l'].
  + cbn [app] in E. injection E as <- _.
    change (digitsValue []) with 0. cbn [Z.mul Z.add].
    split; [lia |]. intros fuel buf _.
    assert (Hlt : (10 <=? code x - 48) = false) by (apply Z.leb_gt; lia).
    destruct fuel; cbn [fmtInteger]; rewrite ?Hlt;
      rewrite digitByte_code by exact Hx'; reflexivity.
  + cbn [app] in E. injection E as <- _.
    destruct IH as [Hpos Hfmt]; [exact Hl | exists y, l'; split; [reflexivity | lia] |].
    split; [lia |]. intros fuel buf Hfuel.
    set (V := digitsValue (y :: l')) in *.
    destruct fuel as [| fuel].
    { simpl in Hfuel. lia. }
    cbn [fmtInteger].
    destruct (Z.leb_spec 10 (V * 10 + (code x - 48))); [| lia].
    assert (Hq : (V * 10 + (code x - 48)) / 10 = V).
    { symmetry. apply (Z.div_unique _ _ _ (code x - 48)); lia. }
    rewrite Hq.
    replace (V * 10 + (code x - 48) - V * 10) with (code x - 48) by lia.
    rewrite digitByte_code by exact Hx'.
    rewrite Hfmt.
    * rewrite <- app_assoc. reflexivity.
    * rewrite Nat2Z.inj_succ in Hfuel.
      replace (Z.succ (Z.of_nat fuel) + 1) with (1 + (Z.of_nat fuel + 1))
        in Hfuel by lia.
      rewrite Z.pow_add_r, Z.pow_1_r in Hfuel by lia. lia.
Qed.

Lemma fmtUint_digitsValue (d : gostring) :
  Matches number (map code d) -> fmtUint (digitsValue d) = d.
Proof.
intros H. destruct (number_canonical d H) as [-> | (c & d' & -> & Hc & Hd')].
- reflexivity.
- destruct (fmtInteger_digitsValue (c :: d')) as [Hpos Hfmt].
  + constructor; [unfold isDigitByte; lia | exact Hd'].
  + exists c, d'. split; [reflexivity | lia].
  + unfold fmtUint. rewrite Hfmt; [apply app_nil_r |].
    pose proof (log2_fuel _ Hpos). lia.
Qed.

End Conversion.

(** ** Where Parse cuts its argument *)

Section Cuts.

Lemma Index_single_found (c : ascii) (s : gostring) :
  0 <= Index s [c] ->
  exists x r, s = x ++ c :: r /\ Forall (fun b => b <> c) x.
Proof.
induction s as [| b s IH]; cbn [Index]; rewrite HasPrefix_single.
- lia.
- destruct (Ascii.eqb_spec b c) as [-> | Hb].
  + intros _. exists [], s. split; [reflexivity | constructor].
  + destruct (Z.ltb_spec (Index s [c]) 0) as [Hi | Hi]; [lia |].
    intros _. destruct (IH Hi) as (x & r & -> & Hx).
    exists (b :: x), r. split; [reflexivity |].
    constructor; assumption.
Qed.

Lemma Index_single_none (c : ascii) (s : gostring) :
  Index s [c] < 0 -> Forall (fun b => b <> c) s.
Proof.
induction s as [| b s IH]; cbn [Index]; rewrite HasPrefix_single.
- constructor.
- destruct (Ascii.eqb_spec b c) as [-> | Hb]; [lia |].
  destruct (Z.ltb_spec (Index s [c]) 0) as [Hi | Hi]; [| lia].
  intros _. constructor; [exact Hb | apply IH; exact Hi].
Qed.

Lemma genSplit_nonempty (fuel : nat) (f sep : gostring) :
  genSplit fuel f sep <> [].
Proof.
destruct fuel; cbn [genSplit]; [discriminate |].
destruct (_ <? 0); discriminate.
Qed.

(** The first piece of a split: the whole string when it is the only
    piece, what precedes the first separator otherwise. *)
Lemma genSplit_head (c : ascii) (fuel : nat) (f x : gostring)
  (l : list gostring) :
  genSplit fuel f [c] = x :: l ->
  (l = [] /\ f = x) \/
  (exists r fuel',
     f = x ++ c :: r /\ Forall (fun b => b <> c) x /\
     genSplit fuel' r [c] = l /\ l <> []).
Proof.
destruct fuel as [| fuel].
- cbn [genSplit]. intros HS. injection HS as -> ->. left. split; reflexivity.
- destruct (Z.ltb_spec (Index f [c]) 0) as [Hi | Hi].
  + cbn [genSplit]. destruct (Z.ltb_spec (Index f [c]) 0); [| lia].
    intros HS. injection HS as -> ->. left. split; reflexivity.
  + destruct (Index_single_found c f Hi) as (x' & r & -> & Hx').
    rewrite genSplit_cut by assumption.
    intros HS. injection HS as -> <-. right.
    exists r, fuel. repeat split; try assumption; try reflexivity.
    apply genSplit_nonempty.
Qed.

(** Three pieces or more: the string is the first three pieces joined by
    the separator, and then nothing or a separator. *)
Lemma Split_three_inv (c : ascii) (f s0 s1 s2 : gostring)
  (rest : list gostring) :
  Split f [c] = s0 :: s1 :: s2 :: rest ->
  exists rb,
    f = s0 ++ c :: s1 ++ c :: s2 ++ rb /\
    (rb = [] \/ exists r, rb = c :: r).
Proof.
unfold Split. intros H.
apply genSplit_head in H as [[H _] | (r1 & f1 & -> & _ & H & _)];
  [discriminate H |].
apply genSplit_head in H as [[H _] | (r2 & f2 & -> & _ & H & _)];
  [discriminate H |].
apply genSplit_head in H as [[_ ->] | (r3 & f3 & -> & _ & _ & _)].
- exists []. rewrite app_nil_r. split; [reflexivity | left; reflexivity].
- exists (c :: r3). split; [reflexivity | right; eexists; reflexivity].
Qed.

(** The two cuts of [Parse] on a string that starts with v. *)
Lemma Parse_cut (t : gostring) :
  (Forall (fun b => b <> "-"%char) t /\
   fieldStrings ("v"%char :: t) = Returns (Split t (str ".")) /\
   preReleaseString ("v"%char :: t) = Returns []) \/
  (exists f pre,
     t = f ++ "-"%char :: pre /\ Forall (fun b => b <> "-"%char) f /\
     fieldStrings ("v"%char :: t) = Returns (Split f (str ".")) /\
     preReleaseString ("v"%char :: t) = Returns pre).
Proof.
unfold fieldStrings, preReleaseString. change (str "-") with ["-"%char].
destruct (Z.ltb_spec (Index ("v"%char :: t) ["-"%char]) 0) as [Hi | Hi].
- left. apply Index_single_none in Hi. inversion Hi; subst.
  split; [assumption |]. rewrite slice_tail. split; reflexivity.
- right. destruct (Index_single_found _ _ Hi) as (x & pre & E & Hx).
  destruct x as [| b f]; cbn [app] in E; [discriminate E |].
  injection E as <- ->. inversion Hx; subst.
  exists f, pre. split; [reflexivity |]. split; [assumption |].
  change ("v"%char :: f ++ "-"%char :: pre)
    with (("v"%char :: f) ++ "-"%char :: pre).
  rewrite Index_single_first by assumption.
  rewrite slice_fields, slice_pre. split; reflexivity.
Qed.

(** [Parse] on a valid string whose first three segments convert. *)
Lemma Parse_three (a : arch) (s s0 s1 s2 pre : gostring)
  (rest : list gostring) (n0 n1 n2 : Z) :
  IsValid s = true ->
  fieldStrings s = Returns (s0 :: s1 :: s2 :: rest) ->
  preReleaseString s = Returns pre ->
  ParseUint s0 (IntSize a) = (n0, None) ->
  ParseUint s1 (IntSize a) = (n1, None) ->
  ParseUint s2 (IntSize a) = (n2, None) ->
  Parse a s
  = Returns (surfaceNew (New (wrap a n0) (wrap a n1) (wrap a n2)
                             [PreRelease pre])).
Proof.
intros Hvalid Hf Hpre P0 P1 P2.
unfold Parse. rewrite Hvalid. cbn [negb].
unfold fieldStrings in Hf. unfold preReleaseString in Hpre.
cbv zeta in Hf, Hpre |- *.
change (str ".") with ["."%char] in Hf |- *.
destruct (Index s (str "-") <? 0).
- destruct (slice s 1 (len s)) as [fields |]; [| discriminate Hf].
  cbn [bind] in Hf |- *. injection Hf as Hf. injection Hpre as <-.
  cbn [fst snd]. rewrite Hf, index_0. cbn [bind]. rewrite P0.
  rewrite index_1. cbn [bind]. rewrite P1.
  rewrite index_2. cbn [bind]. rewrite P2.
  unfold surfaceNew. destruct (New _ _ _ _) as [v [e |]]; reflexivity.
- destruct (slice s 1 (Index s (str "-"))) as [fields |]; [| discriminate Hf].
  cbn [bind] in Hf |- *. injection Hf as Hf. rewrite Hpre.
  cbn [bind fst snd]. rewrite Hf, index_0. cbn [bind]. rewrite P0.
  rewrite index_1. cbn [bind]. rewrite P1.
  rewrite index_2. cbn [bind]. rewrite P2.
  unfold surfaceNew. destruct (New _ _ _ _) as [v [e |]]; reflexivity.
Qed.

End Cuts.

(** ** The string Parse accepts is the rendering of its version *)

Section Canonical.

Lemma optTail_dot (r : gostring) :
  ~ Matches (Opt (Cat (Lit (chr "-")) preReleasePattern))
            (runes ("."%char :: r)).
Proof.
rewrite runes_cons_ascii by (cbn; lia). intros H.
apply optTail_shape in H as [H | [x H]]; discriminate H.
Qed.

Lemma noDigitHead_dot (r : gostring) : noDigitHead (runes ("."%char :: r)).
Proof.
rewrite runes_cons_ascii by (cbn; lia). cbn. unfold isDigitRune. lia.
Qed.

(** A valid string whose first three segments convert is the rendering of
    the three numbers and of the pre-release [Parse] cuts. *)
Lemma Parse_rendering (a : arch) (t s0 s1 s2 pre : gostring)
  (rest : list gostring) (n0 n1 n2 : Z) :
  IsValid ("v"%char :: t) = true ->
  fieldStrings ("v"%char :: t) = Returns (s0 :: s1 :: s2 :: rest) ->
  preReleaseString ("v"%char :: t) = Returns pre ->
  ParseUint s0 (IntSize a) = (n0, None) ->
  ParseUint s1 (IntSize a) = (n1, None) ->
  ParseUint s2 (IntSize a) = (n2, None) ->
  Version_String (mkVersion n0 n1 n2 pre) = "v"%char :: t /\
  wfVersion a (mkVersion n0 n1 n2 pre).
Proof.
intros Hvalid Hf Hpre P0 P1 P2.
apply ParseUint_ok in P0 as (_ & D0 & -> & U0).
apply ParseUint_ok in P1 as (_ & D1 & -> & U1).
apply ParseUint_ok in P2 as (_ & D2 & -> & U2).
split; [| repeat split; first [apply U0 | apply U1 | apply U2]].
rewrite Version_String_rest. cbn [major minor patch preRelease].
destruct (Parse_cut t) as [(_ & Hf' & Hp') | (f & pre' & -> & _ & Hf' & Hp')];
  rewrite Hf' in Hf; rewrite Hp' in Hpre;
  injection Hf as Hf; injection Hpre as <-;
  change (str ".") with ["."%char] in Hf;
  apply Split_three_inv in Hf as (rb & -> & Hrb).
- destruct Hrb as [-> | [r ->]].
  + rewrite app_nil_r in Hvalid |- *.
    rewrite <- (app_nil_r s2) in Hvalid.
    apply IsValid_three_fields in Hvalid as (N0 & N1 & N2 & _);
      try assumption; [| exact I].
    rewrite !fmtUint_digitsValue by assumption.
    rewrite app_nil_r. reflexivity.
  + exfalso.
    apply IsValid_three_fields in Hvalid as (_ & _ & _ & HT);
      try assumption; [| apply noDigitHead_dot].
    exact (optTail_dot r HT).
- rewrite <- !app_assoc in Hvalid. cbn [app] in Hvalid.
  rewrite <- !app_assoc in Hvalid. cbn [app] in Hvalid.
  rewrite <- !app_assoc in Hvalid.
  destruct Hrb as [-> | [r ->]].
  + cbn [app] in Hvalid.
    apply IsValid_three_fields in Hvalid as (N0 & N1 & N2 & HT);
      try assumption; [| apply noDigitHead_dash].
    apply optTail_dash, preReleasePattern_nonempty in HT.
    rewrite !fmtUint_digitsValue by assumption.
    destruct pre' as [| c pre']; [congruence |].
    rewrite app_nil_r. cbn [app]. rewrite <- !app_assoc. cbn [app].
    rewrite <- !app_assoc. reflexivity.
  + exfalso. cbn [app] in Hvalid.
    apply IsValid_three_fields in Hvalid as (_ & _ & _ & HT);
      try assumption; [| apply noDigitHead_dot].
    exact (optTail_dot _ HT).
Qed.

End Canonical.

(** ** The three outcomes of Parse on a valid string *)

Section ValidOutcomes.

Lemma conversionFailure_error (a : arch) (ss : list gostring) (k : nat)
  (e : error) :
  conversionFailure a ss = Some (k, e) ->
  exists seg,
    e = NumError "ParseUint" seg ErrSyntax \/
    e = NumError "ParseUint" seg ErrRange.
Proof.
unfold conversionFailure.
destruct ss as [| s0 ss]; [discriminate |].
destruct (ParseUint s0 (IntSize a)) as [n0 [e0 |]] eqn:E0.
{ intros H. injection H as _ <-. exists s0.
  eapply ParseUint_error; eassumption. }
destruct ss as [| s1 ss]; [discriminate |].
destruct (ParseUint s1 (IntSize a)) as [n1 [e1 |]] eqn:E1.
{ intros H. injection H as _ <-. exists s1.
  eapply ParseUint_error; eassumption. }
destruct ss as [| s2 ss]; [discriminate |].
destruct (ParseUint s2 (IntSize a)) as [n2 [e2 |]] eqn:E2; [| discriminate].
intros H. injection H as _ <-. exists s2.
eapply ParseUint_error; eassumption.
Qed.

Lemma conversionFailure_none (a : arch) (s0 s1 s2 : gostring)
  (rest : list gostring) :
  conversionFailure a (s0 :: s1 :: s2 :: rest) = None ->
  exists n0 n1 n2,
    ParseUint s0 (IntSize a) = (n0, None) /\
    ParseUint s1 (IntSize a) = (n1, None) /\
    ParseUint s2 (IntSize a) = (n2, None).
Proof.
unfold conversionFailure.
destruct (ParseUint s0 (IntSize a)) as [n0 [e0 |]]; [discriminate |].
destruct (ParseUint s1 (IntSize a)) as [n1 [e1 |]]; [discriminate |].
destruct (ParseUint s2 (IntSize a)) as [n2 [e2 |]]; [discriminate |].
intros _. exists n0, n1, n2. repeat split.
Qed.

Lemma preReleaseString_returns (t : gostring) :
  exists pre, preReleaseString ("v"%char :: t) = Returns pre.
Proof.
destruct (Parse_cut t) as [(_ & _ & H) | (f & pre & _ & _ & _ & H)];
  eexists; exact H.
Qed.

(** On a valid string [Parse] panics, or returns the error of a
    conversion, or returns a version whose rendering is the string. *)
Lemma Parse_valid_outcomes (a : arch) (s : gostring) :
  IsValid s = true ->
  Parse a s = Panics \/
  (exists seg kind,
     Parse a s
     = Returns (zeroVersion,
                Some (wrapError "strconv.ParseUint: "
                        (NumError "ParseUint" seg kind))) /\
     (kind = ErrSyntax \/ kind = ErrRange)) \/
  (exists v,
     Parse a s = Returns (v, None) /\ Version_String v = s /\ wfVersion a v).
Proof.
intros Hvalid.
destruct (IsValid_head s Hvalid) as [t ->].
destruct (fieldStrings_returns t) as (ss & Hf & _).
pose proof (Parse_by_segments a _ ss Hvalid Hf) as H.
destruct (conversionFailure a ss) as [[k e] |] eqn:Ec.
- right. left. apply conversionFailure_error in Ec as [seg [-> | ->]];
    exists seg; eexists; (split; [exact H |]); [left | right]; reflexivity.
- destruct ss as [| s0 [| s1 [| s2 rest]]]; try (left; exact H).
  right. right. clear H.
  apply conversionFailure_none in Ec as (n0 & n1 & n2 & P0 & P1 & P2).
  destruct (preReleaseString_returns t) as [pre Hpre].
  destruct (Parse_rendering a t s0 s1 s2 pre rest n0 n1 n2
              Hvalid Hf Hpre P0 P1 P2) as [Hs Hwf].
  exists (mkVersion n0 n1 n2 pre). split; [| split; assumption].
  rewrite (Parse_three a _ s0 s1 s2 pre rest n0 n1 n2) by assumption.
  destruct Hwf as (U0 & U1 & U2). cbn [major minor patch] in U0, U1, U2.
  rewrite !wrap_small by assumption. unfold New.
  change (applyOptions [PreRelease pre] (mkVersion n0 n1 n2 []))
    with (mkVersion n0 n1 n2 pre).
  rewrite Hs, Hvalid. reflexivity.
Qed.

End ValidOutcomes.

(** X7.  When [Parse] returns an error the version it returns is the zero
    value.  The error is the sentinel [ErrInvalidVersion] itself exactly
    when the string fails [IsValid]; on a valid string it is always the
    error of a conversion wrapped under "strconv.ParseUint: ": the final
    call of [New] never fails. *)
Theorem Parse_error_zero_version (a : arch) (s : gostring) (v : Version)
  (e : error) :
  Parse a s = Returns (v, Some e) ->
  v = zeroVersion /\
  (e = ErrInvalidVersion <-> IsValid s = false) /\
  (IsValid s = true ->
   exists seg kind,
     e = wrapError "strconv.ParseUint: " (NumError "ParseUint" seg kind) /\
     (kind = ErrSyntax \/ kind = ErrRange)).
Proof.
intros HP. destruct (IsValid s) eqn:Hvalid.
- destruct (Parse_valid_outcomes a s Hvalid)
    as [H | [(seg & kind & H & Hk) | (w & H & _)]];
    rewrite H in HP; try discriminate HP.
  injection HP as <- <-. split; [reflexivity |].
  split; [split; discriminate |].
  intros _. exists seg, kind. split; [reflexivity | exact Hk].
- unfold Parse in HP. rewrite Hvalid in HP. cbn [negb] in HP.
  injection HP as <- <-. split; [reflexivity |].
  split; [split; reflexivity | discriminate].
Qed.

Lemma Parse_error_zero_version_witness :
  zeroVersion = zeroVersion /\
  (wrapError "strconv.ParseUint: " (NumError "ParseUint" (str "1x2x3") ErrSyntax)
   = ErrInvalidVersion <-> IsValid (str "v1x2x3") = false) /\
  (IsValid (str "v1x2x3") = true ->
   exists seg kind,
     wrapError "strconv.ParseUint: " (NumError "ParseUint" (str "1x2x3") ErrSyntax)
     = wrapError "strconv.ParseUint: " (NumError "ParseUint" seg kind) /\
     (kind = ErrSyntax \/ kind = ErrRange)).
Proof.
apply (Parse_error_zero_version Bits64 (str "v1x2x3")). vm_compute.
reflexivity.
Defined.

(** X8.  [Parse] returns a version with a nil error exactly on the
    rendering of that version, when the rendering is valid and the numbers
    are values of [uint]: the string it accepts is the canonical one, and
    nothing of it is lost. *)
Theorem Parse_success_iff (a : arch) (s : gostring) (v : Version) :
  Parse a s = Returns (v, None) <->
  wfVersion a v /\ IsValid s = true /\ Version_String v = s.
Proof.
split.
- intros HP.
  assert (Hvalid : IsValid s = true).
  { destruct (IsValid s) eqn:E; [reflexivity |].
    unfold Parse in HP. rewrite E in HP. discriminate HP. }
  destruct (Parse_valid_outcomes a s Hvalid)
    as [H | [(seg & kind & H & _) | (w & H & Hs & Hwf)]];
    rewrite H in HP; try discriminate HP.
  injection HP as ->. split; [exact Hwf |]. split; [exact Hvalid | exact Hs].
- intros (Hwf & Hvalid & <-). apply Parse_String; assumption.
Qed.

(** X9.  [Bump] with the option [PreRelease] succeeds or fails by the
    pre-release alone, whatever the version: for each of the three fields
    it returns the bumped numbers with the pre-release when that is empty
    or matches the pre-release part of the pattern, and the zero-value
    version with [ErrInvalidVersion] wrapped under "New: " otherwise. *)
Theorem Bump_PreRelease (a : arch) (v : Version) (s : gostring) :
  wfVersion a v ->
  (s = [] \/ MatchString preReleasePattern s = true ->
   Version_Bump a v Major [PreRelease s]
   = (mkVersion (wrap a (major v + 1)) 0 0 s, None) /\
   Version_Bump a v Minor [PreRelease s]
   = (mkVersion (major v) (wrap a (minor v + 1)) 0 s, None) /\
   Version_Bump a v Patch [PreRelease s]
   = (mkVersion (major v) (minor v) (wrap a (patch v + 1)) s, None)) /\
  (s <> [] /\ MatchString preReleasePattern s = false ->
   forall f, f = Major \/ f = Minor \/ f = Patch ->
     Version_Bump a v f [PreRelease s]
     = (zeroVersion, Some (wrapError "New: " ErrInvalidVersion))).
Proof.
intros ([HM _] & [Hm _] & [Hp _]).
destruct (Bump_fields a v [PreRelease s]) as (EM & Em & Ep).
assert (Hw : forall n, 0 <= wrap a n) by (intros n; apply wrap_isUint).
assert (HN : forall M m p,
           New M m p [PreRelease s]
           = if IsValid (Version_String (mkVersion M m p s))
             then (mkVersion M m p s, None)
             else (zeroVersion, Some ErrInvalidVersion)).
{ intros M m p. unfold New.
  change (applyOptions [PreRelease s] (mkVersion M m p []))
    with (mkVersion M m p s).
  destruct (IsValid _); reflexivity. }
assert (HV : forall M m p, 0 <= M -> 0 <= m -> 0 <= p ->
           (IsValid (Version_String (mkVersion M m p s)) = true <->
            s = [] \/ MatchString preReleasePattern s = true)).
{ intros M m p H1 H2 H3.
  apply (IsValid_String_iff (mkVersion M m p s)); assumption. }
split.
- intros Hs.
  assert (Ht : forall M m p, 0 <= M -> 0 <= m -> 0 <= p ->
             IsValid (Version_String (mkVersion M m p s)) = true)
    by (intros; apply HV; assumption).
  rewrite EM, Em, Ep, !HN.
  rewrite !Ht by first [apply Hw | lia]. repeat split.
- intros [Hne Hf] f Hfield.
  assert (Hinv : forall M m p, 0 <= M -> 0 <= m -> 0 <= p ->
             IsValid (Version_String (mkVersion M m p s)) = false).
  { intros M m p H1 H2 H3.
    destruct (IsValid _) eqn:E; [| reflexivity].
    apply HV in E; try assumption. destruct E; congruence. }
  destruct Hfield as [-> | [-> | ->]].
  + rewrite EM, HN, Hinv by first [apply Hw | lia]. reflexivity.
  + rewrite Em, HN, Hinv by first [apply Hw | lia]. reflexivity.
  + rewrite Ep, HN, Hinv by first [apply Hw | lia]. reflexivity.
Qed.

Lemma Bump_PreRelease_witness :
  Version_Bump Bits64 (mkVersion 1 2 3 []) Minor [PreRelease (str "beta.2")]
  = (mkVersion 1 3 0 (str "beta.2"), None) /\
  Version_Bump Bits64 (mkVersion 1 2 3 []) Minor [PreRelease (str "beta..2")]
  = (zeroVersion, Some (wrapError "New: " ErrInvalidVersion)).
Proof.
assert (Hwf : wfVersion Bits64 (mkVersion 1 2 3 []))
  by (unfold wfVersion, isUint; simpl; lia).
split.
- destruct (Bump_PreRelease Bits64 _ (str "beta.2") Hwf) as [H _].
  destruct H as (_ & H & _); [right; reflexivity | exact H].
- destruct (Bump_PreRelease Bits64 _ (str "beta..2") Hwf) as [_ H].
  apply H; [split; [discriminate | reflexivity] | right; left; reflexivity].
Defined.

(** ** Parse on the strings of the grammar *)

Section GrammarParse.





End GrammarParse.



(** X11.  A version that [New] returns with a nil error holds values of
    [uint] and passes the method [IsValid], as the test of the package
    expects of the versions it builds. *)
Theorem New_result_IsValid (a : arch) (M m p : Z) (opts : list Option)
  (v : Version) :
  isUint a M -> isUint a m -> isUint a p ->
  (forall o, In o opts -> forall x, wfVersion a x -> wfVersion a (o x)) ->
  New M m p opts = (v, None) ->
  wfVersion a v /\ Version_IsValid a v = Returns true.
Proof.
intros HM Hm Hp Hopts Hnew.
apply New_success in Hnew as [Hv Hvalid].
assert (Hwf : wfVersion a v).
{ rewrite Hv. apply applyOptions_wf; [exact Hopts |].
  split; [exact HM |]. split; [exact Hm | exact Hp]. }
split; [exact Hwf |].
unfold Version_IsValid. rewrite Parse_String by assumption. cbn [bind].
assert (Hc : Version_Compare v v = 0) by (apply Compare_eq_iff; repeat split).
rewrite Hc. reflexivity.
Qed.

Lemma New_result_IsValid_witness :
  wfVersion Bits64 (mkVersion 0 0 0 []) /\
  Version_IsValid Bits64 (mkVersion 0 0 0 []) = Returns true.
Proof.
apply (New_result_IsValid Bits64 0 0 0 [PreRelease []] (mkVersion 0 0 0 [])).
- unfold isUint; simpl; lia.
- unfold isUint; simpl; lia.
- unfold isUint; simpl; lia.
- intros o [<- | []] x Hx. exact Hx.
- reflexivity.
Defined.
